(** * Web-Display-Screen: the rotation engine of [Display.tsx]

    A shallow embedding of the [Display] React component
    (src/components/Display.tsx): its hook state, the browser timer table
    its effects arm and cancel, the event handlers, and the pure render
    helpers [getTransitionClass] and [isItemLoaded].

    Modelling conventions.
    - JavaScript numbers that the component only ever uses as integers
      (indices, seconds, minutes, milliseconds) are [Z]; [%] is the
      truncating remainder [Z.rem].  Indices and durations stay far below
      [2^53], where the arithmetic of numbers is that of integers; the
      refresh interval is bounded by nothing, and its products are
      rounded as those of doubles are.
    - [setTimeout] and [setInterval] hand out handles from one counter
      and share one table of live timers; a one-shot timer leaves the
      table when it fires.
    - An event (a click, a timer firing, a gateway response) is handled
      atomically: handler, re-render, effect cleanups, effects.  This is
      the single-threaded event loop of the host.  The two awaited
      queries of [fetchAnnouncements] resolve as two events.
    - [useEffect] dependencies are compared as React does: numbers by
      value, the announcements array by object identity.
    - Of the keep-awake effect only its interval is kept; wake lock,
      audio and video play no part in the rotation. *)

From Stdlib Require Import ZArith Lia Ascii.
From stdpp Require Import base list gmap strings.

Local Open Scope Z_scope.

(** ** JavaScript primitives *)

Module JS.

(** [a % b] on integers: the result has the sign of the dividend. *)
Definition rem (a b : Z) : Z := Z.rem a b.

(** [xs[i]]: [undefined] outside the array. *)
Definition index {A : Type} (xs : list A) (i : Z) : option A :=
  if i <? 0 then None else xs !! Z.to_nat i.

(** [v || d] on an optional number: [undefined], [null] and [0] are
    falsy. *)
Definition or_default (v : option Z) (d : Z) : Z :=
  match v with
  | Some n => if n =? 0 then d else n
  | None => d
  end.

(** [Math.max(a, b)]. *)
Definition max (a b : Z) : Z := Z.max a b.

(** A number is a double: of the integers, those of magnitude up to
    [2^53] all are one, and a larger one is one when it fits 53 binary
    digits.  [to_double z] is the double nearest to the integer [z],
    the even one of two equally near (doubles end near [2^1024]; nothing
    here goes that far). *)
Definition to_double (z : Z) : Z :=
  let a := Z.abs z in
  if a <? 2 ^ 53 then z
  else
    let e := Z.log2 a - 52 in
    let q := a / 2 ^ e in
    let r := a `mod` 2 ^ e in
    let half := 2 ^ (e - 1) in
    let q' := if r <? half then q
              else if half <? r then q + 1
              else if Z.even q then q else q + 1 in
    Z.sgn z * (q' * 2 ^ e).

(** [a * b] on integer-valued numbers: the product, rounded to a
    double. *)
Definition mul (a b : Z) : Z := to_double (a * b).

End JS.

(** ** Data model (types) *)

(** [display_duration] is a nullable integer column: [None] is a row
    whose duration is [null]. [transition_type] is a free text column, so
    it is a string and not a three-valued enumeration. *)
Record Announcement := {
  id : string;
  image_url : string;
  display_duration : option Z;
  transition_type : string;
  active : bool;
  created_at : string;
}.

(** The row returned by [select('refresh_interval')]. *)
Record AppSettings := {
  refresh_interval : Z;
}.

(** The [{ data, error }] pair a gateway query resolves to. *)
Record Response (T : Type) := {
  data : option T;
  error : option string;
}.
Arguments data {T} _.
Arguments error {T} _.

(** ** The browser: timer table and console *)

(** What a live timer will run.  [AdvanceIndex len] is the closure
    [() => setCurrentIndex(prev => (prev + 1) % announcements.length)]
    with [len] the length of the array it captured. *)
Inductive Callback :=
| KeepAlive
| FetchAnnouncements
| AdvanceIndex (len : nat).

Record Timer := {
  repeating : bool;
  delay : Z;
  callback : Callback;
}.

Inductive ConsoleEntry :=
| ConsoleError (message : string) (detail : string).

Record Browser := {
  timers : gmap nat Timer;
  next_handle : nat;
  console : list ConsoleEntry;
}.

Definition is_advance (t : Timer) : bool :=
  match callback t with AdvanceIndex _ => true | _ => false end.

Definition is_fetch (t : Timer) : bool :=
  match callback t with FetchAnnouncements => true | _ => false end.

Module Window.

Definition empty : Browser :=
  {| timers := ∅; next_handle := 0%nat; console := [] |}.

Definition arm (t : Timer) (b : Browser) : nat * Browser :=
  (next_handle b,
   {| timers := <[next_handle b := t]> (timers b);
      next_handle := S (next_handle b);
      console := console b |}).

Definition setTimeout (cb : Callback) (ms : Z) (b : Browser) : nat * Browser :=
  arm {| repeating := false; delay := ms; callback := cb |} b.

Definition setInterval (cb : Callback) (ms : Z) (b : Browser) : nat * Browser :=
  arm {| repeating := true; delay := ms; callback := cb |} b.

(** [clearTimeout] and [clearInterval] share one table of handles. *)
Definition clearTimeout (h : nat) (b : Browser) : Browser :=
  {| timers := delete h (timers b);
     next_handle := next_handle b;
     console := console b |}.

Definition clearInterval (h : nat) (b : Browser) : Browser :=
  clearTimeout h b.

Definition console_error (message detail : string) (b : Browser) : Browser :=
  {| timers := timers b;
     next_handle := next_handle b;
     console := console b ++ [ConsoleError message detail] |}.

End Window.

(** The live advance timers: the pending [setTimeout]s of the cycle
    effect. *)
Definition advance_timers (b : Browser) : gmap nat Timer :=
  filter (λ kt, is_advance kt.2 = true) (timers b).

(** ** Hook state of [Display] *)

(** [announcements_ref] is the identity of the array object held in
    [announcements]: every [setAnnouncements(data || [])] stores a new
    array. *)
Record State := {
  announcements : list Announcement;
  announcements_ref : nat;
  currentIndex : Z;
  loading : bool;
  refreshInterval : Z;
}.

Definition initial_state : State :=
  {| announcements := [];
     announcements_ref := 0%nat;
     currentIndex := 0;
     loading := true;
     refreshInterval := 5 |}.

Definition setAnnouncements (l : list Announcement) (s : State) : State :=
  {| announcements := l;
     announcements_ref := S (announcements_ref s);
     currentIndex := currentIndex s;
     loading := loading s;
     refreshInterval := refreshInterval s |}.

Definition setCurrentIndex (f : Z → Z) (s : State) : State :=
  {| announcements := announcements s;
     announcements_ref := announcements_ref s;
     currentIndex := f (currentIndex s);
     loading := loading s;
     refreshInterval := refreshInterval s |}.

Definition setLoading (v : bool) (s : State) : State :=
  {| announcements := announcements s;
     announcements_ref := announcements_ref s;
     currentIndex := currentIndex s;
     loading := v;
     refreshInterval := refreshInterval s |}.

Definition setRefreshInterval (v : Z) (s : State) : State :=
  {| announcements := announcements s;
     announcements_ref := announcements_ref s;
     currentIndex := currentIndex s;
     loading := loading s;
     refreshInterval := v |}.

(** [announcements.length] as a JavaScript number. *)
Definition len (s : State) : Z := Z.of_nat (length (announcements s)).

(** ** Handlers *)

Definition handlePrev (s : State) : State :=
  setCurrentIndex (λ prev, JS.rem (prev - 1 + len s) (len s)) s.

Definition handleNext (s : State) : State :=
  setCurrentIndex (λ prev, JS.rem (prev + 1) (len s)) s.

Definition selectIndex (idx : nat) (s : State) : State :=
  setCurrentIndex (λ _, Z.of_nat idx) s.

(** The navigation controls exist only in the main render: not while
    loading and not for an empty list (the two early returns). *)
Definition controls_rendered (s : State) : bool :=
  negb (loading s) && negb (length (announcements s) =? 0)%nat.

(** ** Render helpers *)

Definition getTransitionClass (index currentIdx : Z) (type : string) : string :=
  let isActive := index =? currentIdx in
  if String.eqb type "none" then
    if isActive then "opacity-100" else "opacity-0 hidden"
  else if String.eqb type "slide" then
    if isActive then "translate-x-0 opacity-100" else "translate-x-full opacity-0"
  else
    if isActive then "opacity-100" else "opacity-0".

Definition isItemLoaded (s : State) (index : Z) : bool :=
  if (length (announcements s) <=? 1)%nat then true
  else
    let len := len s in
    let isCurrent := index =? currentIndex s in
    let isNext := index =? JS.rem (currentIndex s + 1) len in
    let isPrev := index =? JS.rem (currentIndex s - 1 + len) len in
    isCurrent || isNext || isPrev.

(** The indices [announcements.map((item, index) => ...)] runs over. *)
Definition indices (s : State) : list Z :=
  Z.of_nat <$> seq 0 (length (announcements s)).

(** The indices whose [AnnouncementMedia] gets [shouldLoad = true] and so
    renders an [<img>] or [<video>] rather than [null]. *)
Definition loaded_indices (s : State) : list Z :=
  filter (λ i, isItemLoaded s i = true) (indices s).

Definition loaded_set (s : State) : gset Z :=
  list_to_set (loaded_indices s).

(** ** The component instance: hook state, effect cleanups, browser *)

(** [pollCleanup] and [cycleCleanup] are the cleanup closures the two
    effects returned on their last run: the handle each would clear
    ([None]: the effect returned nothing). *)
Record Display := {
  browser : Browser;
  state : State;
  pollCleanup : option nat;
  cycleCleanup : option nat;
}.

(** *** Effects *)

(** "Poll for updates", dependencies [[refreshInterval]]. *)
Definition poll_delay (s : State) : Z :=
  let safeInterval := JS.max 1 (refreshInterval s) in
  JS.mul (JS.mul safeInterval 60) 1000.

Definition poll_effect (s : State) (b : Browser) : Browser * option nat :=
  let intervalMs := poll_delay s in
  let '(pollInterval, b') := Window.setInterval FetchAnnouncements intervalMs b in
  (b', Some pollInterval).

(** "Cycle logic", dependencies [[currentIndex, announcements]].
    [display_duration] is an [integer] column of 32 bits, so its product
    with 1000 is far below [2^53] and exact. *)
Definition cycle_duration (s : State) : Z :=
  let currentAnnouncement := JS.index (announcements s) (currentIndex s) in
  JS.or_default (currentAnnouncement ≫= display_duration) 10 * 1000.

Definition cycle_effect (s : State) (b : Browser) : Browser * option nat :=
  if (length (announcements s) <=? 1)%nat then (b, None)
  else
    let duration := cycle_duration s in
    let '(timer, b') :=
      Window.setTimeout (AdvanceIndex (length (announcements s))) duration b in
    (b', Some timer).

(** The timer the cycle effect arms for a render with state [s]. *)
Definition cycle_timer (s : State) : Timer :=
  {| repeating := false;
     delay := cycle_duration s;
     callback := AdvanceIndex (length (announcements s)) |}.

Definition poll_timer (s : State) : Timer :=
  {| repeating := true;
     delay := poll_delay s;
     callback := FetchAnnouncements |}.

(** The cleanups the effects return: [() => clearInterval(pollInterval)]
    and [() => clearTimeout(timer)], each closed over the handle of its
    run. *)
Definition poll_cleanup (c : option nat) (b : Browser) : Browser :=
  match c with
  | Some pollInterval => Window.clearInterval pollInterval b
  | None => b
  end.

Definition cycle_cleanup (c : option nat) (b : Browser) : Browser :=
  match c with
  | Some timer => Window.clearTimeout timer b
  | None => b
  end.

(** *** Re-render and commit *)

Definition poll_deps_changed (old new : State) : bool :=
  bool_decide (refreshInterval old ≠ refreshInterval new).

Definition cycle_deps_changed (old new : State) : bool :=
  bool_decide (currentIndex old ≠ currentIndex new)
  || bool_decide (announcements_ref old ≠ announcements_ref new).

(** The cleanups of every effect whose dependencies changed run first, in
    hook order. *)
Definition cleanup_phase (new : State) (d : Display) : Browser :=
  let b1 := if poll_deps_changed (state d) new
            then poll_cleanup (pollCleanup d) (browser d) else browser d in
  if cycle_deps_changed (state d) new
  then cycle_cleanup (cycleCleanup d) b1 else b1.

(** Then those effects run again, in hook order, on the new state. *)
Definition effect_phase (new : State) (d : Display) (b : Browser) : Display :=
  let '(b1, pc) := if poll_deps_changed (state d) new
                   then poll_effect new b else (b, pollCleanup d) in
  let '(b2, cc) := if cycle_deps_changed (state d) new
                   then cycle_effect new b1 else (b1, cycleCleanup d) in
  {| browser := b2; state := new; pollCleanup := pc; cycleCleanup := cc |}.

Definition commit (new : State) (d : Display) : Display :=
  effect_phase new d (cleanup_phase new d).

(** *** Events *)

Inductive Event :=
| TimerFired (h : nat)
| ClickPrev
| ClickNext
| ClickDot (idx : nat)
| ListResponse (r : Response (list Announcement))
| SettingsResponse (r : Response AppSettings).

(** What the handler of an event does before React re-renders: the
    browser side (a one-shot timer leaves the table when it fires, an
    error is logged) and the next hook state. *)
Definition with_browser (b : Browser) (d : Display) : Display :=
  {| browser := b; state := state d;
     pollCleanup := pollCleanup d; cycleCleanup := cycleCleanup d |}.

Definition run_callback (cb : Callback) (s : State) : State :=
  match cb with
  | AdvanceIndex n =>
      setCurrentIndex (λ prev, JS.rem (prev + 1) (Z.of_nat n)) s
  | FetchAnnouncements => s
  | KeepAlive => s
  end.

Definition handler (e : Event) (d : Display) : Display * State :=
  let s := state d in
  match e with
  | TimerFired h =>
      match timers (browser d) !! h with
      | None => (d, s)
      | Some t =>
          let b := if repeating t then browser d
                   else Window.clearTimeout h (browser d) in
          (with_browser b d, run_callback (callback t) s)
      end
  | ClickPrev => (d, if controls_rendered s then handlePrev s else s)
  | ClickNext => (d, if controls_rendered s then handleNext s else s)
  | ClickDot idx =>
      (d, if controls_rendered s && (idx <? length (announcements s))%nat
          then selectIndex idx s else s)
  | ListResponse r =>
      match error r with
      | Some err =>
          (with_browser
             (Window.console_error "Error fetching announcements:" err (browser d)) d,
           s)
      | None => (d, setAnnouncements (default [] (data r)) s)
      end
  | SettingsResponse r =>
      let s1 := match data r with
                | Some settings => setRefreshInterval (refresh_interval settings) s
                | None => s
                end in
      (d, setLoading false s1)
  end.

Definition dispatch (e : Event) (d : Display) : Display :=
  let '(d1, new) := handler e d in
  commit new d1.

(** *** Mount *)

(** The first render runs every effect once, in hook order: the
    keep-awake effect (of which only its [setInterval] is kept here), the
    initial fetch (its responses arrive as events), the poll effect and
    the cycle effect. *)
Definition mount : Display :=
  let '(_, b0) := Window.setInterval KeepAlive 10000 Window.empty in
  let '(b1, pc) := poll_effect initial_state b0 in
  let '(b2, cc) := cycle_effect initial_state b1 in
  {| browser := b2; state := initial_state; pollCleanup := pc; cycleCleanup := cc |}.

Definition run (evs : list Event) (d : Display) : Display :=
  foldl (λ d e, dispatch e d) d evs.

Definition reachable (d : Display) : Prop :=
  ∃ evs, d = run evs mount.

(** Manual navigation events. *)
Definition is_navigation (e : Event) : bool :=
  match e with
  | ClickPrev | ClickNext | ClickDot _ => true
  | _ => false
  end.

(** A successful list query and failed queries. *)
Definition list_ok (l : option (list Announcement)) : Response (list Announcement) :=
  {| data := l; error := None |}.

Definition query_failed {T : Type} (err : string) : Response T :=
  {| data := None; error := Some err |}.

Definition settings_ok (minutes : Z) : Response AppSettings :=
  {| data := Some {| refresh_interval := minutes |}; error := None |}.

(** [0 <= currentIndex < announcements.length] *)
Definition index_in_range (s : State) : Prop :=
  0 ≤ currentIndex s < len s.

(** ** Sample data

    The scenario of the specification: A (5 s, fade), B (10 s, none),
    C (15 s, slide). *)

Definition announcement (name : string) (seconds : option Z)
    (transition : string) : Announcement :=
  {| id := name; image_url := name; display_duration := seconds;
     transition_type := transition; active := true; created_at := "" |}.

Definition itemA : Announcement := announcement "A" (Some 5) "fade".
Definition itemB : Announcement := announcement "B" (Some 10) "none".
Definition itemC : Announcement := announcement "C" (Some 15) "slide".

(** The display after its first fetch returned [A; B; C] and a refresh
    interval of 5 minutes. *)
Definition showing_abc : Display :=
  run [ListResponse (list_ok (Some [itemA; itemB; itemC]));
       SettingsResponse (settings_ok 5)] mount.

(** The same display with a single announcement. *)
Definition showing_a : Display :=
  run [ListResponse (list_ok (Some [itemA]));
       SettingsResponse (settings_ok 5)] mount.

(** The last dot of [showing_abc] is clicked, then a poll returns the
    shorter list [l]. *)
Definition shrunk_to (l : list Announcement) : Display :=
  run [ClickDot 2; ListResponse (list_ok (Some l))] showing_abc.

(** ** Invariants of the component *)

(** The timer table [T] with next free handle [n], against the handles
    [pc] and [cc] held by the poll and cycle cleanups, the timers [pt]
    and [ct] those effects arm for the current state, and the number [N]
    of announcements.  [armed] is the condition under which the advance
    timer is known to be live. *)
Record TimersOk (T : gmap nat Timer) (n : nat) (pc cc : option nat)
    (pt ct : Timer) (N : nat) (armed : Prop) : Prop := {
  (** handles in the table were all handed out already *)
  ok_fresh : ∀ h t, T !! h = Some t → (h < n)%nat;
  (** the poll interval is live and the poll cleanup holds its handle *)
  ok_poll : ∃ p, pc = Some p ∧ T !! p = Some pt;
  (** it is the only poll interval *)
  ok_fetch : ∀ h t, T !! h = Some t → is_fetch t = true → pc = Some h;
  (** a live advance timer is the one the cycle cleanup holds; it was
      armed for the current state, which has at least two items *)
  ok_advance : ∀ h t, T !! h = Some t → is_advance t = true →
               cc = Some h ∧ t = ct ∧ (2 ≤ N)%nat;
  (** the handle held by the cycle cleanup is an advance timer or dead *)
  ok_handle : ∀ h, cc = Some h →
              (h < n)%nat ∧ ∀ t, T !! h = Some t → is_advance t = true;
  ok_armed : armed → ∃ h, cc = Some h ∧ T !! h = Some ct;
}.

(** The table after a cleanup holding [c] ran. *)
Definition clear_handle (c : option nat) (T : gmap nat Timer) : gmap nat Timer :=
  match c with
  | Some h => delete h T
  | None => T
  end.

(** At most one live timer of the table is an advance timer. *)
Definition AtMostOneAdvance (T : gmap nat Timer) : Prop :=
  ∀ h1 t1 h2 t2,
    T !! h1 = Some t1 → is_advance t1 = true →
    T !! h2 = Some t2 → is_advance t2 = true → h1 = h2.

Definition timers_ok (d : Display) (armed : Prop) : Prop :=
  TimersOk (timers (browser d)) (next_handle (browser d))
    (pollCleanup d) (cycleCleanup d)
    (poll_timer (state d)) (cycle_timer (state d))
    (length (announcements (state d))) armed.

(** The invariant of every reachable instance: with two items or more
    the advance timer is armed, and the index is never negative. *)
Definition Inv (d : Display) : Prop :=
  timers_ok d (2 ≤ length (announcements (state d)))%nat ∧
  0 ≤ currentIndex (state d).

(** ** Further parts of [Display.tsx] *)

(** *** Media kind

    [/\.(mp4|webm|ogg|mov)$/i.test(url)]: the text ends, whatever the
    case of its letters, in a dot and one of four extensions.  Strings
    are compared as lists of characters; the [i] flag folds the letters
    A-Z and leaves every other character alone. *)

Definition chars (s : string) : list ascii :=
  Stdlib.Strings.String.list_ascii_of_string s.

Definition of_chars (l : list ascii) : string :=
  Stdlib.Strings.String.string_of_list_ascii l.

Definition lower_ascii (c : ascii) : ascii :=
  let n := nat_of_ascii c in
  if ((65 <=? n) && (n <=? 90))%nat then ascii_of_nat (n + 32) else c.

Definition lower (l : list ascii) : list ascii := lower_ascii <$> l.

Definition video_extensions : list string := ["mp4"; "webm"; "ogg"; "mov"].

Definition ends_with (ending l : list ascii) : bool :=
  bool_decide (ending `suffix_of` l).

Definition isVideo (url : string) : bool :=
  existsb (λ ext : string, ends_with (chars ("." +:+ ext)) (lower (chars url)))
    video_extensions.

(** *** [AnnouncementMedia] and the render of [Display] *)

Inductive Media :=
| NoMedia
| Image (src : string)
| Video (src : string).

(** What [AnnouncementMedia] returns: [null], a [<video>] or an
    [<img>]. *)
Definition AnnouncementMedia (item : Announcement) (shouldLoad : bool) : Media :=
  if negb shouldLoad then NoMedia
  else if isVideo (image_url item) then Video (image_url item)
  else Image (image_url item).

(** One [<div key=...>] of [announcements.map]: its class, the
    [isActive] passed down, and the media inside. *)
Record Slide := {
  slide_key : string;
  className : string;
  isActive : bool;
  media : Media;
}.

Definition slide_of (s : State) (index : nat) (item : Announcement) : Slide :=
  {| slide_key := id item;
     className :=
       "absolute inset-0 flex items-center justify-center transition-all duration-1000 ease-in-out "
       +:+ getTransitionClass (Z.of_nat index) (currentIndex s) (transition_type item);
     isActive := Z.of_nat index =? currentIndex s;
     media := AnnouncementMedia item (isItemLoaded s (Z.of_nat index)) |}.

Definition slides (s : State) : list Slide :=
  imap (slide_of s) (announcements s).

(** The indicator dots: which ones carry the highlighted class. *)
Definition dots (s : State) : list bool :=
  imap (λ idx _, Z.of_nat idx =? currentIndex s) (announcements s).

Inductive View :=
| Spinner
| NoDisplays
| Stage (items : list Slide) (indicators : list bool).

Definition render (s : State) : View :=
  if loading s then Spinner
  else if (length (announcements s) =? 0)%nat then NoDisplays
  else Stage (slides s) (dots s).

(** *** The play/pause effect of [AnnouncementMedia]

    A mounted [AnnouncementMedia], found again from one render to the
    next by the key of its slide: the [isActive] of its last render (the
    dependency of its effect) and the [<video>] element behind
    [videoRef], if one is rendered, with whether [play()] rather than
    [pause()] was called on it last. *)
Record MediaInstance := {
  isActive_dep : bool;
  videoRef : option bool;
}.

(** The effect body: nothing without an element, else [play()] or
    [pause()]. *)
Definition media_effect (active : bool) (ref : option bool) : option bool :=
  match ref with
  | Some _ => if active then Some true else Some false
  | None => None
  end.

(** The element after a render: a [<video>] that was there stays as it
    is, a new one starts paused (there is no [autoPlay]), and there is
    none when an [<img>] or [null] is rendered. *)
Definition media_element (m : Media) (before : option bool) : option bool :=
  match m with
  | Video _ => Some (default false before)
  | _ => None
  end.

(** Render and commit of one instance: the effect runs on mount and
    whenever [isActive] changed. *)
Definition media_update (prev : option MediaInstance) (sl : Slide) : MediaInstance :=
  let ref := media_element (media sl) (prev ≫= videoRef) in
  let run_effect :=
    match prev with
    | None => true
    | Some p => negb (eqb (isActive_dep p) (isActive sl))
    end in
  {| isActive_dep := isActive sl;
     videoRef := if run_effect then media_effect (isActive sl) ref else ref |}.

(** The children after a render of [Display]: the early returns mount
    none of them. *)
Definition media_commit (old : gmap string MediaInstance) (s : State)
    : gmap string MediaInstance :=
  match render s with
  | Stage items _ =>
      list_to_map ((λ sl, (slide_key sl, media_update (old !! slide_key sl) sl))
                     <$> items)
  | _ => ∅
  end.

(** The display with its children. *)
Record Page := {
  display : Display;
  medias : gmap string MediaInstance;
}.

Definition page_mount : Page :=
  {| display := mount; medias := media_commit ∅ (state mount) |}.

Definition page_dispatch (e : Event) (p : Page) : Page :=
  let d := dispatch e (display p) in
  {| display := d; medias := media_commit (medias p) (state d) |}.

Definition page_run (evs : list Event) (p : Page) : Page :=
  foldl (λ p e, page_dispatch e p) p evs.

(** The instance a slide has when its video, if it renders one, plays
    exactly if the slide is the active one. *)
Definition synced_instance (sl : Slide) : MediaInstance :=
  {| isActive_dep := isActive sl;
     videoRef := match media sl with
                 | Video _ => Some (isActive sl)
                 | _ => None
                 end |}.

Definition synced (s : State) : gmap string MediaInstance :=
  match render s with
  | Stage items _ =>
      list_to_map ((λ sl, (slide_key sl, synced_instance sl)) <$> items)
  | _ => ∅
  end.

(** The list an event delivers gives every id the media URL [url_of]
    has for it. *)
Definition urls_fixed (url_of : string → string) (e : Event) : Prop :=
  match e with
  | ListResponse r =>
      ∀ a, a ∈ default [] (data r) → image_url a = url_of (id a)
  | _ => True
  end.

(** Every video on which [play()] was called last belongs to an
    instance rendered active. *)
Definition playing_are_active (m : gmap string MediaInstance) : Prop :=
  ∀ k inst, m !! k = Some inst → videoRef inst = Some true →
            isActive_dep inst = true.

(** A sample video announcement. *)
Definition itemV : Announcement :=
  {| id := "V"; image_url := "https://cdn.example/media/0.4211.MP4";
     display_duration := Some 20; transition_type := "fade";
     active := true; created_at := "" |}.

(** *** Unmount *)

(** The handle the keep-awake effect got from [setInterval] at mount,
    which its cleanup closes over. *)
Definition keepAliveInterval : nat :=
  (Window.setInterval KeepAlive 10000 Window.empty).1.

Definition keepAlive_timer : Timer :=
  {| repeating := true; delay := 10000; callback := KeepAlive |}.

(** The cleanups of the three effects, in hook order. *)
Definition unmount (d : Display) : Browser :=
  cycle_cleanup (cycleCleanup d)
    (poll_cleanup (pollCleanup d)
       (Window.clearInterval keepAliveInterval (browser d))).

(** *** Letting the rotation run *)

(** The armed advance timer expires. *)
Definition expire (d : Display) : Display :=
  match cycleCleanup d with
  | Some timer => dispatch (TimerFired timer) d
  | None => d
  end.

(** Every timer of the table is one of the three the component arms. *)
Definition OwnTimers (d : Display) : Prop :=
  timers (browser d) !! keepAliveInterval = Some keepAlive_timer ∧
  ∀ h t, timers (browser d) !! h = Some t →
    (h = keepAliveInterval ∧ t = keepAlive_timer) ∨
    (pollCleanup d = Some h ∧ t = poll_timer (state d)) ∨
    (cycleCleanup d = Some h ∧ t = cycle_timer (state d)).

(** Events that resolve the settings query of a fetch. *)
Definition is_settings_response (e : Event) : bool :=
  match e with
  | SettingsResponse _ => true
  | _ => false
  end.

(** Events that replace the list: an announcements query without
    error. *)
Definition replaces_list (e : Event) : bool :=
  match e with
  | ListResponse r => match error r with None => true | Some _ => false end
  | _ => false
  end.

(** ** [AdminPanel.tsx] *)

(** *** The name of an uploaded file

    [selectedFile.name.split('.').pop()] and the template
    [`${Math.random()}.${fileExt}`]. *)

(** [l.split(sep)] on characters: the pieces between the separators,
    always at least one. *)
Fixpoint split_on (sep : ascii) (l : list ascii) : list (list ascii) :=
  match l with
  | [] => [[]]
  | c :: l' =>
      if decide (c = sep) then [] :: split_on sep l'
      else match split_on sep l' with
           | [] => [[c]]
           | piece :: pieces => (c :: piece) :: pieces
           end
  end.

Definition fileExt (name : string) : string :=
  of_chars (default [] (last (split_on "."%char (chars name)))).

(** [random] is the text of [Math.random()]. *)
Definition filePath (random name : string) : string :=
  random +:+ "." +:+ fileExt name.

Module Admin.

(** A [File] of the file input: its [name] and MIME [type]. *)
Record File := {
  name : string;
  type : string;
}.

Record State := {
  announcements : list Announcement;
  uploading : bool;
  duration : Z;
  selectedFile : option File;
  uploadPreviewUrl : option nat;
  viewUrl : option string;
}.

(** What the panel asks of the gateway. *)
Inductive Request :=
| SelectAll
| StorageUpload (path : string) (file : File)
| InsertRow (image_url : string) (display_duration : Z) (active : bool)
| UpdateActive (id : string) (active : bool)
| DeleteRow (id : string).

(** The page around the panel: the object URLs created and not yet
    revoked (a URL is the number it was created under), the alerts shown
    and the requests sent. *)
Record Env := {
  objectURLs : gset nat;
  next_url : nat;
  alerts : list string;
  requests : list Request;
}.

Definition createObjectURL (env : Env) : nat * Env :=
  (next_url env,
   {| objectURLs := {[ next_url env ]} ∪ objectURLs env;
      next_url := S (next_url env);
      alerts := alerts env; requests := requests env |}).

Definition revokeObjectURL (url : nat) (env : Env) : Env :=
  {| objectURLs := objectURLs env ∖ {[ url ]};
     next_url := next_url env;
     alerts := alerts env; requests := requests env |}.

Definition alert (message : string) (env : Env) : Env :=
  {| objectURLs := objectURLs env; next_url := next_url env;
     alerts := alerts env ++ [message]; requests := requests env |}.

Definition send (r : Request) (env : Env) : Env :=
  {| objectURLs := objectURLs env; next_url := next_url env;
     alerts := alerts env; requests := requests env ++ [r] |}.

(** Where a running [confirmUpload] waits, with what it closed over. *)
Inductive Job :=
| AwaitUpload (path : string) (seconds : Z)
| AwaitInsert (path : string) (seconds : Z).

(** The mounted panel.  [previewCleanup] is the URL the cleanup of the
    preview effect closed over. *)
Record Panel := {
  env : Env;
  state : State;
  previewCleanup : option nat;
  job : option Job;
}.

Definition initial_state : State :=
  {| announcements := []; uploading := false; duration := 10;
     selectedFile := None; uploadPreviewUrl := None; viewUrl := None |}.

Definition setAnnouncements (l : list Announcement) (s : State) : State :=
  {| announcements := l; uploading := uploading s; duration := duration s;
     selectedFile := selectedFile s; uploadPreviewUrl := uploadPreviewUrl s;
     viewUrl := viewUrl s |}.

Definition setUploading (v : bool) (s : State) : State :=
  {| announcements := announcements s; uploading := v; duration := duration s;
     selectedFile := selectedFile s; uploadPreviewUrl := uploadPreviewUrl s;
     viewUrl := viewUrl s |}.

Definition setDuration (v : Z) (s : State) : State :=
  {| announcements := announcements s; uploading := uploading s; duration := v;
     selectedFile := selectedFile s; uploadPreviewUrl := uploadPreviewUrl s;
     viewUrl := viewUrl s |}.

Definition setSelection (f : option File) (url : option nat) (s : State) : State :=
  {| announcements := announcements s; uploading := uploading s;
     duration := duration s;
     selectedFile := f; uploadPreviewUrl := url; viewUrl := viewUrl s |}.

Definition setViewUrl (v : option string) (s : State) : State :=
  {| announcements := announcements s; uploading := uploading s;
     duration := duration s; selectedFile := selectedFile s;
     uploadPreviewUrl := uploadPreviewUrl s; viewUrl := v |}.

Definition cancelUpload (s : State) : State := setSelection None None s.

(** The upload modal, with its Cancel and Confirm buttons, is
    rendered. *)
Definition modal_rendered (s : State) : bool :=
  bool_decide (is_Some (selectedFile s)) &&
  bool_decide (is_Some (uploadPreviewUrl s)).

Inductive Event :=
| FileSelect (files : list File)
| DurationInput (v : Z)
| CancelClick
| ConfirmClick (random : string)
| UploadDone (uploadError : option string)
| InsertDone (dbError : option string)
| ListDone (r : Response (list Announcement))
| ToggleClick (row : nat)
| ToggleDone (err : option string)
| DeleteClick (row : nat) (confirmed : bool)
| DeleteDone (err : option string)
| ViewClick (row : nat)
| ViewClose.

Definition fetchAnnouncements (e : Env) : Env := send SelectAll e.

(** The list an event hands to [setAnnouncements]: the [data] of a
    [select] that came back with some. *)
Definition fetched (ev : Event) : option (list Announcement) :=
  match ev with
  | ListDone r => data r
  | _ => None
  end.

Section gateway.
(** [supabase.storage.from('announcements').getPublicUrl(filePath)] *)
Variable getPublicUrl : string → string.

(** The handler of an event: the page and the job after it, and the next
    hook state. *)
Definition handler (ev : Event) (p : Panel) : Env * option Job * State :=
  let s := state p in
  let idle := (env p, job p, s) in
  match ev with
  | FileSelect files =>
      if uploading s then idle
      else match files with
           | [] => idle
           | file :: _ =>
               let '(url, e) := createObjectURL (env p) in
               (e, job p, setSelection (Some file) (Some url) s)
           end
  | DurationInput v => (env p, job p, setDuration v s)
  | CancelClick =>
      if modal_rendered s && negb (uploading s)
      then (env p, job p, cancelUpload s) else idle
  | ConfirmClick random =>
      if modal_rendered s && negb (uploading s) then
        match selectedFile s with
        | None => idle
        | Some file =>
            let path := filePath random (name file) in
            (send (StorageUpload path file) (env p),
             Some (AwaitUpload path (duration s)),
             setUploading true s)
        end
      else idle
  | UploadDone uploadError =>
      match job p with
      | Some (AwaitUpload path seconds) =>
          match uploadError with
          | Some message =>
              (alert ("Error uploading document: " +:+ message) (env p),
               None, setUploading false s)
          | None =>
              (send (InsertRow (getPublicUrl path) seconds true) (env p),
               Some (AwaitInsert path seconds), s)
          end
      | _ => idle
      end
  | InsertDone dbError =>
      match job p with
      | Some (AwaitInsert path seconds) =>
          match dbError with
          | Some message =>
              (alert ("Error uploading document: " +:+ message) (env p),
               None, setUploading false s)
          | None =>
              (fetchAnnouncements (alert "Upload successful!" (env p)),
               None, setUploading false (cancelUpload s))
          end
      | _ => idle
      end
  | ListDone r =>
      match data r with
      | Some l => (env p, job p, setAnnouncements l s)
      | None => idle
      end
  | ToggleClick row =>
      match announcements s !! row with
      | Some item =>
          (send (UpdateActive (id item) (negb (active item))) (env p), job p, s)
      | None => idle
      end
  | ToggleDone err =>
      match err with
      | None => (fetchAnnouncements (env p), job p, s)
      | Some _ => idle
      end
  | DeleteClick row confirmed =>
      match announcements s !! row with
      | Some item =>
          if confirmed then (send (DeleteRow (id item)) (env p), job p, s)
          else idle
      | None => idle
      end
  | DeleteDone err =>
      match err with
      | None => (fetchAnnouncements (env p), job p, s)
      | Some _ => idle
      end
  | ViewClick row =>
      match announcements s !! row with
      | Some item => (env p, job p, setViewUrl (Some (image_url item)) s)
      | None => idle
      end
  | ViewClose => (env p, job p, setViewUrl None s)
  end.

(** The cleanup of the preview effect, dependencies
    [[uploadPreviewUrl]]. *)
Definition preview_cleanup (c : option nat) (e : Env) : Env :=
  match c with
  | Some uploadPreviewUrl => revokeObjectURL uploadPreviewUrl e
  | None => e
  end.

Definition commit (e : Env) (j : option Job) (new : State) (p : Panel) : Panel :=
  if bool_decide (uploadPreviewUrl (state p) ≠ uploadPreviewUrl new)
  then {| env := preview_cleanup (previewCleanup p) e; state := new;
          previewCleanup := uploadPreviewUrl new; job := j |}
  else {| env := e; state := new; previewCleanup := previewCleanup p; job := j |}.

Definition dispatch (ev : Event) (p : Panel) : Panel :=
  let '(e, j, new) := handler ev p in
  commit e j new p.

Definition run (evs : list Event) (p : Panel) : Panel :=
  foldl (λ p ev, dispatch ev p) p evs.

End gateway.

(** The first render: the initial fetch is sent and the preview effect
    closes over no URL. *)
Definition mount : Panel :=
  {| env := fetchAnnouncements
              {| objectURLs := ∅; next_url := 0%nat; alerts := []; requests := [] |};
     state := initial_state;
     previewCleanup := uploadPreviewUrl initial_state;
     job := None |}.

Definition unmount (p : Panel) : Env :=
  preview_cleanup (previewCleanup p) (env p).

End Admin.

(** What holds of the panel after every event. *)
Record AdminInv (p : Admin.Panel) : Prop := {
  (** the cleanup of the preview effect holds the URL in the state *)
  adm_cleanup : Admin.previewCleanup p = Admin.uploadPreviewUrl (Admin.state p);
  (** that URL is the only object URL alive *)
  adm_urls : Admin.objectURLs (Admin.env p) =
             match Admin.uploadPreviewUrl (Admin.state p) with
             | Some url => {[ url ]}
             | None => ∅
             end;
  adm_fresh : ∀ url, Admin.uploadPreviewUrl (Admin.state p) = Some url →
              (url < Admin.next_url (Admin.env p))%nat;
  (** file and preview are set and cleared together *)
  adm_selection : is_Some (Admin.selectedFile (Admin.state p)) ↔
                  is_Some (Admin.uploadPreviewUrl (Admin.state p));
  (** [uploading] is set exactly while a [confirmUpload] runs *)
  adm_uploading : Admin.uploading (Admin.state p) = true ↔ is_Some (Admin.job p);
  (** which it does on the open modal *)
  adm_job : is_Some (Admin.job p) → Admin.modal_rendered (Admin.state p) = true;
}.

(** * Proofs *)

(** ** Arithmetic of the index *)

Lemma rem_mod (a b : Z) : 0 ≤ a → 0 < b → JS.rem a b = a `mod` b.
Proof. intros Ha Hb. unfold JS.rem. apply Z.rem_mod_nonneg; lia. Qed.

Lemma rem_nonneg (a b : Z) : 0 ≤ a → 0 ≤ JS.rem a b.
Proof.
  intros Ha. unfold JS.rem. destruct (decide (b = 0)) as [->|Hb].
  - unfold Z.rem, Z.quotrem. destruct a; simpl; lia.
  - apply Z.rem_nonneg; lia.
Qed.

Lemma next_moves (c n : Z) : 0 ≤ c → 2 ≤ n → JS.rem (c + 1) n ≠ c.
Proof.
  intros Hc Hn. rewrite rem_mod by lia. intros Heq.
  assert (Hlt : c < n) by (rewrite <- Heq; apply Z.mod_pos_bound; lia).
  destruct (decide (c + 1 = n)) as [Hlast|Hne].
  - rewrite Hlast, Z.mod_same in Heq by lia. lia.
  - rewrite Z.mod_small in Heq by lia. lia.
Qed.

(** [next] and [prev] on an in-range index, by cases on the wrap. *)
Lemma next_cases (c n : Z) :
  0 ≤ c < n →
  JS.rem (c + 1) n = if decide (c + 1 = n) then 0 else c + 1.
Proof.
  intros Hc. rewrite rem_mod by lia. case_decide as Hw.
  - rewrite Hw. apply Z.mod_same. lia.
  - apply Z.mod_small. lia.
Qed.

Lemma prev_cases (c n : Z) :
  0 ≤ c < n →
  JS.rem (c - 1 + n) n = if decide (c = 0) then n - 1 else c - 1.
Proof.
  intros Hc. rewrite rem_mod by lia. case_decide as Hw.
  - subst c. replace (0 - 1 + n) with (n - 1) by lia. apply Z.mod_small. lia.
  - replace (c - 1 + n) with (c - 1 + 1 * n) by lia.
    rewrite Z.mod_add by lia. apply Z.mod_small. lia.
Qed.

(** ** The timer table under the operations of the effects *)

Lemma poll_timer_fetch (s : State) : is_fetch (poll_timer s) = true.
Proof. reflexivity. Qed.

Lemma advance_not_fetch (t : Timer) :
  is_advance t = true → is_fetch t = true → False.
Proof. unfold is_advance, is_fetch. destruct (callback t); discriminate. Qed.

Lemma poll_deps_unchanged (old new : State) :
  poll_deps_changed old new = false → poll_timer new = poll_timer old.
Proof.
  unfold poll_deps_changed. intros H. apply bool_decide_eq_false in H.
  unfold poll_timer, poll_delay.
  destruct (decide (refreshInterval old = refreshInterval new)) as [->|]; done.
Qed.

Lemma cycle_deps_unchanged (old new : State) :
  cycle_deps_changed old new = false →
  currentIndex new = currentIndex old ∧
  announcements_ref new = announcements_ref old.
Proof.
  unfold cycle_deps_changed. intros H. apply orb_false_elim in H as [H1 H2].
  apply bool_decide_eq_false in H1, H2.
  destruct (decide (currentIndex old = currentIndex new));
    destruct (decide (announcements_ref old = announcements_ref new)); done.
Qed.

Lemma cycle_timer_ext (old new : State) :
  announcements new = announcements old →
  currentIndex new = currentIndex old →
  cycle_timer new = cycle_timer old.
Proof. intros Ha Hi. unfold cycle_timer, cycle_duration. by rewrite Ha, Hi. Qed.

Section table.
Context (T : gmap nat Timer) (n : nat) (pc cc : option nat).
Context (pt ct : Timer) (N : nat) (armed : Prop).
Hypothesis Hok : TimersOk T n pc cc pt ct N armed.
Hypothesis Hpt_fetch : is_fetch pt = true.

Lemma ok_weaken (armed' : Prop) :
  (armed' → armed) → TimersOk T n pc cc pt ct N armed'.
Proof. destruct Hok. constructor; auto. Qed.

(** The poll effect runs again: its interval is cleared and a new one
    armed. *)
Lemma ok_repoll (p : nat) (pt' : Timer) :
  pc = Some p → is_fetch pt' = true →
  TimersOk (<[n := pt']> (delete p T)) (S n) (Some n) cc pt' ct N armed.
Proof.
  intros -> Hpt'. destruct Hok as [Hfresh (p' & Hp' & Hpt) Hfetch Hadv Hh Harm].
  simplify_eq. constructor.
  - intros h t Hl. apply lookup_insert_Some in Hl as [[<- _]|[_ Hl]]; [lia|].
    apply lookup_delete_Some in Hl as [_ Hl]. apply Hfresh in Hl. lia.
  - exists n. by rewrite lookup_insert_eq.
  - intros h t Hl Hf. apply lookup_insert_Some in Hl as [[<- _]|[_ Hl]]; [done|].
    apply lookup_delete_Some in Hl as [Hne Hl].
    specialize (Hfetch _ _ Hl Hf). congruence.
  - intros h t Hl Ha. apply lookup_insert_Some in Hl as [[<- <-]|[_ Hl]].
    + destruct (advance_not_fetch _ Ha Hpt').
    + apply lookup_delete_Some in Hl as [_ Hl]. eauto.
  - intros h Hc. destruct (Hh _ Hc) as [Hlt Ht]. split; [lia|].
    intros t Hl. apply lookup_insert_Some in Hl as [[<- _]|[_ Hl]]; [lia|].
    apply lookup_delete_Some in Hl as [_ Hl]. eauto.
  - intros Ha. destruct (Harm Ha) as (h & Hc & Hl). exists h. split; [done|].
    destruct (Hh _ Hc) as [Hlt Ht].
    rewrite lookup_insert_ne by lia. rewrite lookup_delete_ne; [done|].
    intros <-. destruct (advance_not_fetch pt); eauto.
Qed.

Lemma clear_handle_lookup (h : nat) (t : Timer) :
  clear_handle cc T !! h = Some t → T !! h = Some t ∧ is_advance t = false.
Proof.
  destruct Hok as [_ _ _ Hadv _ _]. unfold clear_handle.
  destruct cc as [c|] eqn:Ec.
  - intros Hl. apply lookup_delete_Some in Hl as [Hne Hl]. split; [done|].
    destruct (is_advance t) eqn:Ea; [|done].
    destruct (Hadv _ _ Hl Ea) as [? _]. congruence.
  - intros Hl. split; [done|].
    destruct (is_advance t) eqn:Ea; [|done].
    destruct (Hadv _ _ Hl Ea) as [? _]. congruence.
Qed.

Lemma clear_handle_poll (p : nat) :
  pc = Some p → clear_handle cc T !! p = Some pt.
Proof.
  intros Hp. destruct Hok as [_ (p' & Hp' & Hpt) _ _ Hh _]. simplify_eq.
  unfold clear_handle. destruct cc as [c|]; [|done].
  rewrite lookup_delete_ne; [done|]. intros ->.
  destruct (Hh _ eq_refl) as [_ Ht]. destruct (advance_not_fetch pt); eauto.
Qed.

(** The cycle effect runs again and arms a timer. *)
Lemma ok_recycle_arm (ct' : Timer) (N' : nat) (armed' : Prop) :
  is_advance ct' = true → (2 ≤ N')%nat →
  TimersOk (<[n := ct']> (clear_handle cc T)) (S n) pc (Some n) pt ct' N' armed'.
Proof.
  intros Hct' HN'.
  pose proof clear_handle_lookup as Hclear. pose proof clear_handle_poll as Hcp.
  destruct Hok as [Hfresh (p & Hp & Hpt) Hfetch Hadv Hh Harm]. constructor.
  - intros h t Hl. apply lookup_insert_Some in Hl as [[<- _]|[_ Hl]]; [lia|].
    apply Hclear in Hl as [Hl _]. apply Hfresh in Hl. lia.
  - exists p. split; [done|]. rewrite lookup_insert_ne; [by apply Hcp|].
    apply Hfresh in Hpt. lia.
  - intros h t Hl Hf. apply lookup_insert_Some in Hl as [[<- <-]|[_ Hl]].
    + destruct (advance_not_fetch _ Hct' Hf).
    + apply Hclear in Hl as [Hl _]. eauto.
  - intros h t Hl Ha. apply lookup_insert_Some in Hl as [[<- <-]|[_ Hl]]; [done|].
    apply Hclear in Hl as [_ Hl]. congruence.
  - intros h [= <-]. split; [lia|]. intros t. rewrite lookup_insert_eq. congruence.
  - intros _. exists n. by rewrite lookup_insert_eq.
Qed.

(** The cycle effect runs again and returns at its guard. *)
Lemma ok_recycle_stop (ct' : Timer) (N' : nat) (armed' : Prop) :
  ¬ armed' →
  TimersOk (clear_handle cc T) n pc None pt ct' N' armed'.
Proof.
  intros Hna.
  pose proof clear_handle_lookup as Hclear. pose proof clear_handle_poll as Hcp.
  destruct Hok as [Hfresh (p & Hp & Hpt) Hfetch Hadv Hh Harm]. constructor.
  - intros h t Hl. apply Hclear in Hl as [Hl _]. eauto.
  - exists p. split; [done|]. by apply Hcp.
  - intros h t Hl Hf. apply Hclear in Hl as [Hl _]. eauto.
  - intros h t Hl Ha. apply Hclear in Hl as [_ Hl]. congruence.
  - intros h [=].
  - intros Ha. destruct (Hna Ha).
Qed.

(** A one-shot timer fires and leaves the table. *)
Lemma ok_fire (h : nat) (t : Timer) :
  T !! h = Some t → repeating t = false → repeating pt = true →
  TimersOk (delete h T) n pc cc pt ct N (armed ∧ is_advance t = false).
Proof.
  intros Hl Hrt Hrp.
  destruct Hok as [Hfresh (p & Hp & Hpt) Hfetch Hadv Hh Harm]. constructor.
  - intros k u Hk. apply lookup_delete_Some in Hk as [_ Hk]. eauto.
  - exists p. split; [done|]. rewrite lookup_delete_ne; [done|].
    intros ->. congruence.
  - intros k u Hk Hf. apply lookup_delete_Some in Hk as [_ Hk]. eauto.
  - intros k u Hk Ha. apply lookup_delete_Some in Hk as [_ Hk]. eauto.
  - intros k Hc. destruct (Hh _ Hc) as [Hlt Ht]. split; [done|].
    intros u Hk. apply lookup_delete_Some in Hk as [_ Hk]. eauto.
  - intros [Ha Hna]. destruct (Harm Ha) as (k & Hc & Hk). exists k.
    split; [done|]. rewrite lookup_delete_ne; [done|]. intros ->.
    destruct (Hh _ Hc) as [_ Ht]. specialize (Ht _ Hl). congruence.
Qed.

End table.

(** ** Commit preserves the invariant *)

Lemma timers_cleanup (c : option nat) (b : Browser) :
  timers (cycle_cleanup c b) = clear_handle c (timers b) ∧
  next_handle (cycle_cleanup c b) = next_handle b ∧
  console (cycle_cleanup c b) = console b.
Proof. by destruct c. Qed.

Lemma clear_handle_insert (c : option nat) (n : nat) (t : Timer)
    (T : gmap nat Timer) :
  (∀ h, c = Some h → (h < n)%nat) →
  clear_handle c (<[n := t]> T) = <[n := t]> (clear_handle c T).
Proof.
  intros Hlt. destruct c as [h|]; simpl; [|done].
  specialize (Hlt h eq_refl). rewrite delete_insert_ne by lia. done.
Qed.

Lemma commit_state (new : State) (d : Display) : state (commit new d) = new.
Proof.
  unfold commit, effect_phase, poll_effect, cycle_effect.
  destruct (poll_deps_changed (state d) new),
    (cycle_deps_changed (state d) new),
    (length (announcements new) <=? 1)%nat; reflexivity.
Qed.

Lemma commit_inv (d : Display) (new : State) :
  timers_ok d (cycle_deps_changed (state d) new = false ∧
               (2 ≤ length (announcements (state d)))%nat) →
  (cycle_deps_changed (state d) new = false →
     announcements new = announcements (state d)) →
  0 ≤ currentIndex new →
  Inv (commit new d).
Proof.
  unfold timers_ok. intros Hok Hsame Hidx. split; [|by rewrite commit_state].
  pose proof (ok_poll _ _ _ _ _ _ _ _ Hok) as (p & Hp & Hpt).
  assert (Hlt : ∀ h, cycleCleanup d = Some h → (h < next_handle (browser d))%nat)
    by (intros h Hh; by destruct (ok_handle _ _ _ _ _ _ _ _ Hok h Hh)).
  pose proof (ok_repoll _ _ _ _ _ _ _ _ Hok (poll_timer_fetch _) p
                (poll_timer new) Hp (poll_timer_fetch _)) as Hre.
  unfold timers_ok, commit, cleanup_phase, effect_phase, poll_effect, cycle_effect.
  change (poll_cleanup (pollCleanup d) (browser d))
    with (cycle_cleanup (pollCleanup d) (browser d)).
  destruct (poll_deps_changed (state d) new) eqn:Ep;
    destruct (cycle_deps_changed (state d) new) eqn:Ec;
    destruct (length (announcements new) <=? 1)%nat eqn:El; simpl.
  all: try apply Nat.leb_le in El; try apply Nat.leb_gt in El.
  all: try (apply poll_deps_unchanged in Ep; rewrite Ep).
  all: try (pose proof (Hsame eq_refl) as Hann;
            apply cycle_deps_unchanged in Ec as [Hci _];
            rewrite (cycle_timer_ext _ _ Hann Hci), Hann).
  all: rewrite ?Hp; simpl.
  all: repeat match goal with
         | |- context [timers (cycle_cleanup ?c ?b)] =>
             destruct (timers_cleanup c b) as (-> & -> & _)
         | |- context [next_handle (cycle_cleanup ?c ?b)] =>
             destruct (timers_cleanup c b) as (_ & -> & _)
         end; simpl.
  - rewrite <- clear_handle_insert by done.
    apply (ok_recycle_stop _ _ _ _ _ _ _ _ Hre (poll_timer_fetch _)). lia.
  - rewrite <- clear_handle_insert by done.
    apply (ok_recycle_arm _ _ _ _ _ _ _ _ Hre (poll_timer_fetch _)); [done|lia].
  - apply (ok_weaken _ _ _ _ _ _ _ _ Hre). tauto.
  - apply (ok_weaken _ _ _ _ _ _ _ _ Hre). tauto.
  - rewrite <- Hp.
    apply (ok_recycle_stop _ _ _ _ _ _ _ _ Hok (poll_timer_fetch _)). lia.
  - rewrite <- Hp.
    apply (ok_recycle_arm _ _ _ _ _ _ _ _ Hok (poll_timer_fetch _)); [done|lia].
  - rewrite <- Hp. apply (ok_weaken _ _ _ _ _ _ _ _ Hok). tauto.
  - rewrite <- Hp. apply (ok_weaken _ _ _ _ _ _ _ _ Hok). tauto.
Qed.

(** ** Handlers keep the table well-formed *)

Lemma mount_inv : Inv mount.
Proof.
  split; [|done]. unfold timers_ok. simpl. constructor.
  - intros h t Hl. repeat (apply lookup_insert_Some in Hl as [[<- _]|[_ Hl]]; [lia|]).
    by rewrite lookup_empty in Hl.
  - exists 1%nat. split; [done|]. by rewrite lookup_insert_eq.
  - intros h t Hl Hf.
    apply lookup_insert_Some in Hl as [[<- _]|[_ Hl]]; [done|].
    apply lookup_insert_Some in Hl as [[<- <-]|[_ Hl]]; [done|].
    by rewrite lookup_empty in Hl.
  - intros h t Hl Ha.
    apply lookup_insert_Some in Hl as [[<- <-]|[_ Hl]]; [done|].
    apply lookup_insert_Some in Hl as [[<- <-]|[_ Hl]]; [done|].
    by rewrite lookup_empty in Hl.
  - intros h [=].
  - lia.
Qed.

Lemma cycle_deps_setAnnouncements (l : list Announcement) (s : State) :
  cycle_deps_changed s (setAnnouncements l s) = true.
Proof.
  unfold cycle_deps_changed. simpl. apply orb_true_intro. right.
  apply bool_decide_eq_true. lia.
Qed.

Lemma cycle_deps_index (f : Z → Z) (s : State) :
  f (currentIndex s) ≠ currentIndex s →
  cycle_deps_changed s (setCurrentIndex f s) = true.
Proof.
  intros Hne. unfold cycle_deps_changed. simpl. apply orb_true_intro. left.
  apply bool_decide_eq_true. congruence.
Qed.

Lemma controls_rendered_nonempty (s : State) :
  controls_rendered s = true →
  loading s = false ∧ (1 ≤ length (announcements s))%nat.
Proof.
  unfold controls_rendered. intros H. apply andb_true_iff in H as [Hl Hn].
  apply negb_true_iff in Hl, Hn. apply Nat.eqb_neq in Hn. split; [done|lia].
Qed.

Lemma handler_ok (e : Event) (d : Display) :
  Inv d →
  state (handler e d).1 = state d ∧
  timers_ok (handler e d).1
    (cycle_deps_changed (state d) (handler e d).2 = false ∧
     (2 ≤ length (announcements (state d)))%nat) ∧
  (cycle_deps_changed (state d) (handler e d).2 = false →
     announcements (handler e d).2 = announcements (state d)) ∧
  0 ≤ currentIndex (handler e d).2.
Proof.
  intros [Hok Hidx]. unfold timers_ok in *.
  assert (Hweak : ∀ P : Prop,
    TimersOk (timers (browser d)) (next_handle (browser d))
      (pollCleanup d) (cycleCleanup d) (poll_timer (state d))
      (cycle_timer (state d)) (length (announcements (state d)))
      (P ∧ (2 ≤ length (announcements (state d)))%nat))
    by (intros P; apply (ok_weaken _ _ _ _ _ _ _ _ Hok); tauto).
  destruct e as [h| | |idx|r|r]; simpl.
  - destruct (timers (browser d) !! h) as [t|] eqn:Hl; simpl; [|auto].
    split; [done|].
    destruct (is_advance t) eqn:Ea.
    + destruct (ok_advance _ _ _ _ _ _ _ _ Hok _ _ Hl Ea) as (Hc & -> & HN).
      simpl.
      assert (Hmv : cycle_deps_changed (state d)
                (setCurrentIndex
                   (λ prev, JS.rem (prev + 1)
                              (Z.of_nat (length (announcements (state d)))))
                   (state d)) = true)
        by (apply cycle_deps_index, next_moves; lia).
      rewrite Hmv. split; [|split; [done|apply rem_nonneg; lia]].
      eapply ok_weaken;
        [apply (ok_fire _ _ _ _ _ _ _ _ Hok (poll_timer_fetch _) _ _ Hl); done|].
      intros [[=] _].
    + assert (Hs : run_callback (callback t) (state d) = state d)
        by (unfold is_advance in Ea; by destruct (callback t)).
      rewrite Hs. split; [|auto].
      destruct (repeating t) eqn:Er; simpl; [apply Hweak|].
      eapply ok_weaken;
        [apply (ok_fire _ _ _ _ _ _ _ _ Hok (poll_timer_fetch _) _ _ Hl); done|].
      tauto.
  - split; [done|]. split; [apply Hweak|].
    destruct (controls_rendered (state d)) eqn:Hcr; simpl; [|auto].
    split; [done|]. apply rem_nonneg.
    apply controls_rendered_nonempty in Hcr. unfold len. lia.
  - split; [done|]. split; [apply Hweak|].
    destruct (controls_rendered (state d)); simpl; [|auto].
    split; [done|]. apply rem_nonneg. lia.
  - split; [done|]. split; [apply Hweak|].
    destruct (controls_rendered (state d) && (idx <? length (announcements (state d)))%nat);
      simpl; [|auto].
    split; [done|]. lia.
  - destruct (error r) as [err|]; simpl.
    + split; [done|]. split; [apply Hweak|auto].
    + split; [done|]. split; [apply Hweak|].
      rewrite cycle_deps_setAnnouncements. split; [done|auto].
  - split; [done|]. split; [apply Hweak|].
    destruct (data r); simpl; auto.
Qed.

Lemma dispatch_inv (e : Event) (d : Display) : Inv d → Inv (dispatch e d).
Proof.
  intros HI. destruct (handler_ok e d HI) as (Hs & Hok & Hsame & Hidx).
  unfold dispatch. destruct (handler e d) as [d1 new]. simpl in *.
  apply commit_inv; rewrite ?Hs; done.
Qed.

Lemma run_inv (evs : list Event) (d : Display) : Inv d → Inv (run evs d).
Proof.
  revert d. induction evs as [|e evs IH]; intros d HI; simpl; [done|].
  apply IH, dispatch_inv, HI.
Qed.

Lemma reachable_inv (d : Display) : reachable d → Inv d.
Proof. intros [evs ->]. apply run_inv, mount_inv. Qed.

Lemma reachable_dispatch (e : Event) (d : Display) :
  reachable d → reachable (dispatch e d).
Proof.
  intros [evs ->]. exists (evs ++ [e]). unfold run. by rewrite foldl_app.
Qed.

Lemma reachable_run (evs : list Event) (d : Display) :
  reachable d → reachable (run evs d).
Proof.
  intros [evs0 ->]. exists (evs0 ++ evs). unfold run. by rewrite foldl_app.
Qed.

(** ** Render helpers *)

(** C8. The transition class of an item: for ['none'], [opacity-100]
    (fully opaque) when the item is the current one and
    [opacity-0 hidden] (fully hidden) otherwise; for ['slide'],
    [translate-x-0 opacity-100] (rest position, opaque) when current and
    [translate-x-full opacity-0] (translated fully off-stage,
    transparent) otherwise; for ['fade'] and every other value,
    [opacity-100] when current and [opacity-0] otherwise. *)
Theorem getTransitionClass_cases (index currentIdx : Z) :
  getTransitionClass index currentIdx "none" =
    (if index =? currentIdx then "opacity-100" else "opacity-0 hidden") ∧
  getTransitionClass index currentIdx "slide" =
    (if index =? currentIdx then "translate-x-0 opacity-100"
     else "translate-x-full opacity-0") ∧
  getTransitionClass index currentIdx "fade" =
    (if index =? currentIdx then "opacity-100" else "opacity-0") ∧
  ∀ type : string, type ≠ "none" → type ≠ "slide" →
    getTransitionClass index currentIdx type =
      (if index =? currentIdx then "opacity-100" else "opacity-0").
Proof.
  repeat split.
  intros type Hnone Hslide. unfold getTransitionClass.
  apply String.eqb_neq in Hnone, Hslide. by rewrite Hnone, Hslide.
Qed.

Lemma getTransitionClass_cases_witness :
  getTransitionClass 0 1 "zoom" = "opacity-0".
Proof.
  exact (proj2 (proj2 (proj2 (getTransitionClass_cases 0 1))) "zoom"
           ltac:(discriminate) ltac:(discriminate)).
Defined.

Lemma elem_of_indices (s : State) (i : Z) : i ∈ indices s ↔ 0 ≤ i < len s.
Proof.
  unfold indices, len. rewrite list_elem_of_fmap. split.
  - intros (k & -> & Hk). apply elem_of_seq in Hk. lia.
  - intros Hi. exists (Z.to_nat i). split; [lia|]. apply elem_of_seq. lia.
Qed.

Lemma NoDup_indices (s : State) : NoDup (indices s).
Proof. unfold indices. apply NoDup_fmap_2; [apply _|apply NoDup_seq]. Qed.

Lemma elem_of_loaded_indices (s : State) (i : Z) :
  i ∈ loaded_indices s ↔ isItemLoaded s i = true ∧ 0 ≤ i < len s.
Proof.
  unfold loaded_indices. by rewrite list_elem_of_filter, elem_of_indices.
Qed.

Lemma isItemLoaded_many (s : State) (i : Z) :
  (2 ≤ length (announcements s))%nat →
  isItemLoaded s i = true ↔
    i = currentIndex s ∨ i = JS.rem (currentIndex s + 1) (len s) ∨
    i = JS.rem (currentIndex s - 1 + len s) (len s).
Proof.
  intros HN. unfold isItemLoaded.
  destruct (length (announcements s) <=? 1)%nat eqn:El;
    [apply Nat.leb_le in El; lia|].
  rewrite !orb_true_iff, !Z.eqb_eq. tauto.
Qed.

(** C4. For an in-range current index, the indices whose media is
    materialised are all the indices, that is the current one alone, when
    there is at most one item, and exactly the current, the next
    [(c + 1) mod N] and the previous [(c - 1 + N) mod N] when there are
    two or more; so never more than three. *)
Theorem preload_set (s : State) :
  index_in_range s →
  ((length (announcements s) ≤ 1)%nat →
     loaded_indices s = indices s ∧ loaded_set s = {[ currentIndex s ]}) ∧
  ((2 ≤ length (announcements s))%nat →
     loaded_set s =
       {[ currentIndex s;
          (currentIndex s + 1) `mod` len s;
          (currentIndex s - 1 + len s) `mod` len s ]}) ∧
  (length (loaded_indices s) ≤ 3)%nat ∧ (size (loaded_set s) ≤ 3)%nat.
Proof.
  intros Hc. unfold index_in_range in Hc.
  assert (Hfew : (length (announcements s) ≤ 1)%nat →
                 loaded_indices s = indices s ∧ indices s = [currentIndex s]).
  { intros HN. unfold loaded_indices, isItemLoaded.
    destruct (length (announcements s) <=? 1)%nat eqn:El;
      [|apply Nat.leb_gt in El; lia].
    split.
    - induction (indices s) as [|i l IH]; [done|].
      rewrite filter_cons_True by done. by rewrite IH.
    - unfold indices, len in *.
      destruct (length (announcements s)) as [|[|n]]; [lia| |lia].
      simpl. f_equal. lia. }
  assert (Hmany : (2 ≤ length (announcements s))%nat → ∀ i,
            i ∈ loaded_indices s ↔
            i ∈ [currentIndex s; (currentIndex s + 1) `mod` len s;
                 (currentIndex s - 1 + len s) `mod` len s]).
  { intros HN i. rewrite elem_of_loaded_indices, isItemLoaded_many by done.
    rewrite !rem_mod by (unfold len; lia).
    pose proof (Z.mod_pos_bound (currentIndex s + 1) (len s)).
    pose proof (Z.mod_pos_bound (currentIndex s - 1 + len s) (len s)).
    rewrite !elem_of_cons, elem_of_nil. split.
    - tauto.
    - intros [->|[->|[->|[]]]]; (split; [tauto|lia]). }
  assert (Hlen : (length (loaded_indices s) ≤ 3)%nat).
  { destruct (decide (length (announcements s) ≤ 1)%nat) as [HN|HN].
    - destruct (Hfew HN) as [-> ->]. simpl. lia.
    - etrans; [apply submseteq_length, NoDup_submseteq|].
      + apply NoDup_filter, NoDup_indices.
      + intros i Hi. apply (proj1 (Hmany ltac:(lia) i) Hi).
      + simpl. lia. }
  split; [|split; [|split; [done|]]].
  - intros HN. destruct (Hfew HN) as [Hl Hi]. split; [done|].
    unfold loaded_set. rewrite Hl, Hi. simpl. by rewrite (right_id_L ∅ (∪)).
  - intros HN. unfold loaded_set. apply set_eq. intros i.
    rewrite elem_of_list_to_set, (Hmany HN).
    rewrite !elem_of_cons, elem_of_nil, !elem_of_union, !elem_of_singleton. tauto.
  - unfold loaded_set. rewrite size_list_to_set; [done|].
    apply NoDup_filter, NoDup_indices.
Qed.

Lemma preload_set_witness :
  index_in_range (state showing_abc) ∧
  loaded_set (state showing_abc) = {[ 0; 1; 2 ]} ∧
  (length (loaded_indices (state showing_abc)) ≤ 3)%nat.
Proof.
  assert (Hr : index_in_range (state showing_abc)) by (vm_compute; split; congruence).
  split; [exact Hr|].
  destruct (preload_set (state showing_abc) Hr) as (_ & Hmany & Hlen & _).
  split; [|exact Hlen].
  apply Hmany. vm_compute. lia.
Defined.

(** ** Manual navigation *)

Lemma next_prev_index (c n : Z) :
  0 ≤ c < n → JS.rem (JS.rem (c + 1) n - 1 + n) n = c.
Proof.
  intros Hc. rewrite next_cases by done. case_decide as Hw.
  - rewrite prev_cases by lia. rewrite decide_True by done. lia.
  - rewrite prev_cases by lia. rewrite decide_False by lia. lia.
Qed.

Lemma prev_next_index (c n : Z) :
  0 ≤ c < n → JS.rem (JS.rem (c - 1 + n) n + 1) n = c.
Proof.
  intros Hc. rewrite prev_cases by done. case_decide as Hw.
  - rewrite next_cases by lia. rewrite decide_True by lia. lia.
  - rewrite next_cases by lia. rewrite decide_False by lia. lia.
Qed.

(** C10, as amended.  For an index in range (so for a list of length at
    least 1), [next] followed by [prev], and [prev] followed by [next],
    give the hook state back: [currentIndex] returns to its value. *)
Theorem next_prev_roundtrip (s : State) :
  index_in_range s →
  handlePrev (handleNext s) = s ∧ handleNext (handlePrev s) = s ∧
  currentIndex (handlePrev (handleNext s)) = currentIndex s ∧
  currentIndex (handleNext (handlePrev s)) = currentIndex s.
Proof.
  intros Hc. unfold index_in_range in Hc.
  assert (H1 : handlePrev (handleNext s) = s).
  { unfold handlePrev, handleNext, setCurrentIndex, len. simpl.
    fold (len s). rewrite next_prev_index by done. by destruct s. }
  assert (H2 : handleNext (handlePrev s) = s).
  { unfold handlePrev, handleNext, setCurrentIndex, len. simpl.
    fold (len s). rewrite prev_next_index by done. by destruct s. }
  by rewrite H1, H2.
Qed.

Lemma next_prev_roundtrip_witness :
  index_in_range (state showing_abc) ∧
  handlePrev (handleNext (state showing_abc)) = state showing_abc.
Proof.
  assert (Hr : index_in_range (state showing_abc)) by (vm_compute; split; congruence).
  split; [exact Hr|]. exact (proj1 (next_prev_roundtrip _ Hr)).
Defined.

(** C10 as stated fails outside the range.  After the list shrank from
    three items to two under index 2, the list has length 2 >= 1, [next]
    gives [(2 + 1) % 2 = 1] and [prev] then gives [(1 - 1 + 2) % 2 = 0],
    not 2; likewise [prev] then [next] ends at 0. *)
Lemma next_prev_out_of_range :
  let d := shrunk_to [itemA; itemB] in
  reachable d ∧
  length (announcements (state d)) = 2%nat ∧
  currentIndex (state d) = 2 ∧
  currentIndex (handlePrev (handleNext (state d))) = 0 ∧
  currentIndex (handleNext (handlePrev (state d))) = 0 ∧
  currentIndex (state (run [ClickNext; ClickPrev] d)) = 0 ∧
  currentIndex (state (run [ClickPrev; ClickNext] d)) = 0 ∧
  ¬ (∀ s : State, (1 ≤ length (announcements s))%nat →
       currentIndex (handlePrev (handleNext s)) = currentIndex s).
Proof.
  split.
  - exists [ListResponse (list_ok (Some [itemA; itemB; itemC]));
            SettingsResponse (settings_ok 5);
            ClickDot 2; ListResponse (list_ok (Some [itemA; itemB]))].
    reflexivity.
  - do 6 (split; [by vm_compute|]).
    intros Hall.
    specialize (Hall (state (shrunk_to [itemA; itemB])) ltac:(vm_compute; lia)).
    vm_compute in Hall. discriminate.
Qed.

(** ** What a dispatch leaves in place *)

Lemma dispatch_state (e : Event) (d : Display) :
  state (dispatch e d) = (handler e d).2.
Proof. unfold dispatch. destruct (handler e d). apply commit_state. Qed.

Lemma poll_deps_same (old new : State) :
  refreshInterval new = refreshInterval old → poll_deps_changed old new = false.
Proof.
  intros H. unfold poll_deps_changed. apply bool_decide_eq_false. congruence.
Qed.

Lemma cycle_deps_same (old new : State) :
  currentIndex new = currentIndex old →
  announcements_ref new = announcements_ref old →
  cycle_deps_changed old new = false.
Proof.
  intros Hi Hr. unfold cycle_deps_changed. apply orb_false_intro;
    apply bool_decide_eq_false; congruence.
Qed.

(** No dependency changed: no cleanup and no effect runs. *)
Lemma commit_no_deps (new : State) (d : Display) :
  refreshInterval new = refreshInterval (state d) →
  currentIndex new = currentIndex (state d) →
  announcements_ref new = announcements_ref (state d) →
  commit new d =
    {| browser := browser d; state := new;
       pollCleanup := pollCleanup d; cycleCleanup := cycleCleanup d |}.
Proof.
  intros Hr Hi Ha. unfold commit, cleanup_phase, effect_phase.
  by rewrite poll_deps_same, cycle_deps_same.
Qed.

Lemma commit_same (d : Display) : commit (state d) d = d.
Proof. rewrite commit_no_deps by done. by destruct d. Qed.

(** ** Refresh poller *)

(** Below [2^53] the products of the poll effect are exact. *)
Lemma to_double_exact (z : Z) : Z.abs z < 2 ^ 53 → JS.to_double z = z.
Proof.
  intros Hz. unfold JS.to_double. cbv zeta.
  destruct (Z.ltb_spec (Z.abs z) (2 ^ 53)); [done|lia].
Qed.

Lemma poll_delay_exact (s : State) :
  Z.max 1 (refreshInterval s) * 60000 < 2 ^ 53 →
  poll_delay s = Z.max 1 (refreshInterval s) * 60 * 1000.
Proof.
  intros Hb. unfold poll_delay, JS.mul, JS.max. cbv zeta.
  rewrite (to_double_exact (Z.max 1 (refreshInterval s) * 60)) by lia.
  apply to_double_exact. lia.
Qed.

(** C6, as amended.  Whatever [refresh_interval] a settings fetch
    returns, zero and negative values included, as long as
    [max(1, refresh_interval) * 60000] is below [2^53], the component then
    holds exactly one poll interval, armed for
    [max(1, refresh_interval) * 60 * 1000] milliseconds; for a value of 0
    or less that is one minute. *)
Theorem poll_cadence (d : Display) (minutes : Z) (err : option string) :
  reachable d →
  Z.max 1 minutes * 60000 < 2 ^ 53 →
  let d' := dispatch (SettingsResponse
                        {| data := Some {| refresh_interval := minutes |};
                           error := err |}) d in
  refreshInterval (state d') = minutes ∧
  poll_delay (state d') = Z.max 1 minutes * 60 * 1000 ∧
  (minutes ≤ 0 → poll_delay (state d') = 60000) ∧
  ∃ p, pollCleanup d' = Some p ∧
       timers (browser d') !! p =
         Some {| repeating := true;
                 delay := Z.max 1 minutes * 60 * 1000;
                 callback := FetchAnnouncements |} ∧
       ∀ h t, timers (browser d') !! h = Some t → is_fetch t = true → h = p.
Proof.
  intros Hr Hb d'.
  assert (Hs : refreshInterval (state d') = minutes)
    by (unfold d'; by rewrite dispatch_state).
  assert (Hd : poll_delay (state d') = Z.max 1 minutes * 60 * 1000)
    by (rewrite poll_delay_exact; rewrite Hs; done).
  split; [done|]. split; [done|]. split; [intros; rewrite Hd; lia|].
  destruct (reachable_inv d' (reachable_dispatch _ _ Hr)) as [Hok _].
  destruct (ok_poll _ _ _ _ _ _ _ _ Hok) as (p & Hp & Hpt).
  exists p. split; [done|]. split.
  - rewrite Hpt. unfold poll_timer. by rewrite Hd.
  - intros h t Hl Hf.
    pose proof (ok_fetch _ _ _ _ _ _ _ _ Hok _ _ Hl Hf). congruence.
Qed.

Lemma poll_cadence_witness :
  reachable showing_abc ∧
  poll_delay (state (dispatch (SettingsResponse (settings_ok (-3))) showing_abc))
    = 60000.
Proof.
  assert (Hr : reachable showing_abc) by (eexists; reflexivity).
  split; [exact Hr|].
  destruct (poll_cadence showing_abc (-3) None Hr ltac:(lia))
    as (_ & _ & Hmin & _).
  apply Hmin. lia.
Defined.

(** C6 as stated fails for a [refresh_interval] so large that the
    product leaves the integers a number holds exactly.  A settings
    fetch returns 150119987579017 minutes: times 60 is 9007199254741020,
    still a double; times 1000 is 9007199254741020000, between [2^62] and
    [2^63], where doubles are 1024 apart, and the poll interval is armed
    for the nearest one, 9007199254741019648. *)
Lemma poll_cadence_rounded :
  let minutes := 150119987579017 in
  let d' := dispatch (SettingsResponse (settings_ok minutes)) showing_abc in
  refreshInterval (state d') = minutes ∧
  Z.max 1 minutes * 60 * 1000 = 9007199254741020000 ∧
  poll_delay (state d') = 9007199254741019648 ∧
  ∃ p, pollCleanup d' = Some p ∧
       timers (browser d') !! p =
         Some {| repeating := true; delay := 9007199254741019648;
                 callback := FetchAnnouncements |} ∧
       delay (poll_timer (state d')) ≠ Z.max 1 minutes * 60 * 1000.
Proof.
  split; [by vm_compute|]. split; [by vm_compute|]. split; [by vm_compute|].
  eexists. split; [by vm_compute|]. split; [by vm_compute|].
  by vm_compute.
Qed.

(** What a failed fetch retains.  A failed announcements query is
    logged and changes nothing else: list, index, refresh interval,
    timers and cleanups are those of before.  A failed settings query (no
    row) only clears the loading flag: list, refresh interval and timers
    are kept.  When both queries of a round fail, list and refresh
    interval are the last known good ones and the poll interval is the
    one armed before, so the next poll comes at the same cadence. *)
Theorem failed_fetch_retains (d : Display) (dat : option (list Announcement))
    (err : string) (serr : option string) :
  let list_failed := ListResponse {| data := dat; error := Some err |} in
  let settings_failed := SettingsResponse {| data := None; error := serr |} in
  dispatch list_failed d =
    with_browser
      (Window.console_error "Error fetching announcements:" err (browser d)) d ∧
  dispatch settings_failed d =
    {| browser := browser d; state := setLoading false (state d);
       pollCleanup := pollCleanup d; cycleCleanup := cycleCleanup d |} ∧
  let d' := run [list_failed; settings_failed] d in
  announcements (state d') = announcements (state d) ∧
  announcements_ref (state d') = announcements_ref (state d) ∧
  currentIndex (state d') = currentIndex (state d) ∧
  refreshInterval (state d') = refreshInterval (state d) ∧
  poll_delay (state d') = poll_delay (state d) ∧
  timers (browser d') = timers (browser d) ∧
  pollCleanup d' = pollCleanup d ∧
  cycleCleanup d' = cycleCleanup d ∧
  console (browser d') =
    console (browser d) ++ [ConsoleError "Error fetching announcements:" err].
Proof.
  intros list_failed settings_failed.
  assert (H1 : dispatch list_failed d =
    with_browser
      (Window.console_error "Error fetching announcements:" err (browser d)) d).
  { unfold dispatch, list_failed. simpl.
    by rewrite (commit_same (with_browser _ d)). }
  assert (H2 : ∀ d0, dispatch settings_failed d0 =
    {| browser := browser d0; state := setLoading false (state d0);
       pollCleanup := pollCleanup d0; cycleCleanup := cycleCleanup d0 |}).
  { intros d0. unfold dispatch, settings_failed. simpl.
    by rewrite commit_no_deps. }
  split; [done|]. split; [apply H2|].
  simpl. rewrite H1, H2. simpl. done.
Qed.

(** C5.  A failed fetch is to be logged, whichever of its two queries
    failed; the code logs one of them only.  On the display showing
    [A; B; C] a settings query that fails with "timeout" leaves the
    console empty, where the announcements query failing the same way,
    a few lines above in the same function, adds the error entry.  List,
    refresh interval, poll cadence and timers are retained in both
    cases. *)
Lemma settings_failure_not_logged :
  let settings_failed :=
    dispatch (SettingsResponse (query_failed "timeout")) showing_abc in
  let list_failed :=
    dispatch (ListResponse (query_failed "timeout")) showing_abc in
  console (browser showing_abc) = [] ∧
  console (browser settings_failed) = [] ∧
  console (browser list_failed) =
    [ConsoleError "Error fetching announcements:" "timeout"] ∧
  announcements (state settings_failed) = [itemA; itemB; itemC] ∧
  refreshInterval (state settings_failed) = 5 ∧
  timers (browser settings_failed) = timers (browser showing_abc) ∧
  announcements (state list_failed) = [itemA; itemB; itemC] ∧
  refreshInterval (state list_failed) = 5 ∧
  timers (browser list_failed) = timers (browser showing_abc).
Proof. by vm_compute. Qed.

(** ** The advance timer *)

Lemma ok_at_most_one (T : gmap nat Timer) (n : nat) (pc cc : option nat)
    (pt ct : Timer) (N : nat) (armed : Prop) :
  TimersOk T n pc cc pt ct N armed → AtMostOneAdvance T.
Proof.
  intros Hok h1 t1 h2 t2 Hl1 Ha1 Hl2 Ha2.
  destruct (ok_advance _ _ _ _ _ _ _ _ Hok _ _ Hl1 Ha1) as [H1 _].
  destruct (ok_advance _ _ _ _ _ _ _ _ Hok _ _ Hl2 Ha2) as [H2 _].
  congruence.
Qed.

Lemma at_most_one_delete (T : gmap nat Timer) (h : nat) :
  AtMostOneAdvance T → AtMostOneAdvance (delete h T).
Proof.
  intros HT h1 t1 h2 t2 Hl1 Ha1 Hl2 Ha2.
  apply lookup_delete_Some in Hl1 as [_ Hl1], Hl2 as [_ Hl2]. eauto.
Qed.

Lemma at_most_one_clear (c : option nat) (T : gmap nat Timer) :
  AtMostOneAdvance T → AtMostOneAdvance (clear_handle c T).
Proof. destruct c; [apply at_most_one_delete|done]. Qed.

Lemma advance_filter_Some (T : gmap nat Timer) (h : nat) (t : Timer) :
  filter (λ kt : nat * Timer, is_advance kt.2 = true) T !! h = Some t ↔
  T !! h = Some t ∧ is_advance t = true.
Proof. by rewrite map_lookup_filter_Some. Qed.

Lemma at_most_one_size (b : Browser) :
  AtMostOneAdvance (timers b) → (size (advance_timers b) ≤ 1)%nat.
Proof.
  intros HT. unfold advance_timers.
  destruct (map_choose_or_empty
              (filter (λ kt : nat * Timer, is_advance kt.2 = true) (timers b)))
    as [(h & t & Hl)|Hempty]; [|rewrite Hempty, map_size_empty; lia].
  assert (Heq : filter (λ kt : nat * Timer, is_advance kt.2 = true) (timers b)
                = {[ h := t ]}).
  { apply map_eq. intros k. destruct (decide (k = h)) as [->|Hne].
    - by rewrite lookup_singleton_eq.
    - rewrite lookup_singleton_ne by done.
      destruct (filter _ (timers b) !! k) as [u|] eqn:Hk; [|done].
      apply advance_filter_Some in Hl as [Hl Ha], Hk as [Hk Hu].
      destruct Hne. eauto. }
  rewrite Heq, map_size_singleton. lia.
Qed.

(** With fewer than two announcements no advance timer is live. *)
Lemma advance_timers_none (d : Display) (armed : Prop) :
  timers_ok d armed → (length (announcements (state d)) ≤ 1)%nat →
  advance_timers (browser d) = ∅.
Proof.
  intros Hok HN. unfold advance_timers. apply map_eq. intros k.
  rewrite lookup_empty.
  destruct (filter _ (timers (browser d)) !! k) as [u|] eqn:Hk; [|done].
  apply advance_filter_Some in Hk as [Hk Hu].
  destruct (ok_advance _ _ _ _ _ _ _ _ Hok _ _ Hk Hu) as (_ & _ & ?). lia.
Qed.

(** With two or more the only one is the timer of the cycle effect. *)
Lemma advance_timers_one (d : Display) :
  Inv d → (2 ≤ length (announcements (state d)))%nat →
  ∃ h, cycleCleanup d = Some h ∧
       timers (browser d) !! h = Some (cycle_timer (state d)) ∧
       advance_timers (browser d) = {[ h := cycle_timer (state d) ]}.
Proof.
  intros [Hok _] HN. destruct (ok_armed _ _ _ _ _ _ _ _ Hok HN) as (h & Hc & Hl).
  exists h. split; [done|]. split; [done|].
  unfold advance_timers. apply map_eq. intros k.
  destruct (decide (k = h)) as [->|Hne].
  - rewrite lookup_singleton_eq. by apply advance_filter_Some.
  - rewrite lookup_singleton_ne by done.
    destruct (filter _ (timers (browser d)) !! k) as [u|] eqn:Hk; [|done].
    apply advance_filter_Some in Hk as [Hk Hu].
    destruct (ok_advance _ _ _ _ _ _ _ _ Hok _ _ Hk Hu) as (? & _). congruence.
Qed.

(** The cleanup of the cycle effect leaves no advance timer behind. *)
Lemma cleanup_phase_clears (new : State) (d : Display) (armed : Prop) :
  timers_ok d armed → cycle_deps_changed (state d) new = true →
  advance_timers (cleanup_phase new d) = ∅.
Proof.
  intros Hok Hc. unfold cleanup_phase, advance_timers.
  rewrite Hc.
  change (poll_cleanup (pollCleanup d) (browser d))
    with (cycle_cleanup (pollCleanup d) (browser d)).
  apply map_eq. intros k. rewrite lookup_empty.
  destruct (filter _ _ !! k) as [u|] eqn:Hk; [|done]. exfalso.
  apply advance_filter_Some in Hk as [Hk Hu].
  destruct (timers_cleanup (cycleCleanup d)
              (if poll_deps_changed (state d) new
               then cycle_cleanup (pollCleanup d) (browser d) else browser d))
    as (Ht & _). rewrite Ht in Hk. clear Ht.
  assert (Hin : timers (browser d) !! k = Some u ∧ cycleCleanup d ≠ Some k).
  { destruct (cycleCleanup d) as [c|] eqn:Ec; simpl in Hk.
    - apply lookup_delete_Some in Hk as [Hne Hk]. split; [|congruence].
      destruct (poll_deps_changed (state d) new); [|done].
      destruct (timers_cleanup (pollCleanup d) (browser d)) as (Ht & _).
      rewrite Ht in Hk. destruct (pollCleanup d); simpl in Hk; [|done].
      by apply lookup_delete_Some in Hk as [_ Hk].
    - split; [|done].
      destruct (poll_deps_changed (state d) new); [|done].
      destruct (timers_cleanup (pollCleanup d) (browser d)) as (Ht & _).
      rewrite Ht in Hk. destruct (pollCleanup d); simpl in Hk; [|done].
      by apply lookup_delete_Some in Hk as [_ Hk]. }
  destruct Hin as [Hl Hne].
  by destruct (ok_advance _ _ _ _ _ _ _ _ Hok _ _ Hl Hu) as (? & _).
Qed.

Lemma cleanup_phase_at_most_one (new : State) (d : Display) (armed : Prop) :
  timers_ok d armed → AtMostOneAdvance (timers (cleanup_phase new d)).
Proof.
  intros Hok. apply ok_at_most_one in Hok. unfold cleanup_phase.
  change (poll_cleanup (pollCleanup d) (browser d))
    with (cycle_cleanup (pollCleanup d) (browser d)).
  repeat match goal with
  | |- context [if ?c then _ else _] => destruct c
  | |- context [timers (cycle_cleanup ?c ?b)] =>
      destruct (timers_cleanup c b) as (-> & _)
  end; repeat apply at_most_one_clear; done.
Qed.

(** ** Rotation *)

Lemma index_out_of_range_lookup (s : State) :
  ¬ index_in_range s → JS.index (announcements s) (currentIndex s) = None.
Proof.
  unfold index_in_range, len, JS.index. intros Hc.
  destruct (currentIndex s <? 0) eqn:Hneg; [done|].
  apply Z.ltb_ge in Hneg. apply lookup_ge_None_2. lia.
Qed.

Lemma cycle_duration_item (s : State) (a : Announcement) (seconds : Z) :
  JS.index (announcements s) (currentIndex s) = Some a →
  display_duration a = Some seconds → seconds ≠ 0 →
  cycle_duration s = seconds * 1000.
Proof.
  intros Ha Hd Hnz. unfold cycle_duration. rewrite Ha. simpl. rewrite Hd. simpl.
  apply Z.eqb_neq in Hnz. by rewrite Hnz.
Qed.

Lemma cycle_duration_default (s : State) :
  ¬ index_in_range s ∨
  (∃ a, JS.index (announcements s) (currentIndex s) = Some a ∧
        (display_duration a = None ∨ display_duration a = Some 0)) →
  cycle_duration s = 10 * 1000.
Proof.
  unfold cycle_duration. intros [Hout|(a & Ha & [Hd|Hd])].
  - by rewrite index_out_of_range_lookup.
  - rewrite Ha. simpl. by rewrite Hd.
  - rewrite Ha. simpl. by rewrite Hd.
Qed.

(** The advance timer fires: the index moves to the next item, the
    cleanup clears the fired handle and the effect arms a timer under a
    new handle. *)
Lemma fire_advance (d : Display) (h : nat) :
  0 ≤ currentIndex (state d) →
  (2 ≤ length (announcements (state d)))%nat →
  cycleCleanup d = Some h →
  timers (browser d) !! h = Some (cycle_timer (state d)) →
  dispatch (TimerFired h) d =
    let new := setCurrentIndex (λ prev, JS.rem (prev + 1) (len (state d)))
                 (state d) in
    {| browser :=
         {| timers := <[next_handle (browser d) := cycle_timer new]>
                        (delete h (timers (browser d)));
            next_handle := S (next_handle (browser d));
            console := console (browser d) |};
       state := new;
       pollCleanup := pollCleanup d;
       cycleCleanup := Some (next_handle (browser d)) |}.
Proof.
  intros Hidx HN Hc Hl. unfold dispatch, handler. rewrite Hl. simpl.
  unfold commit, cleanup_phase, effect_phase. simpl.
  rewrite poll_deps_same by done.
  rewrite cycle_deps_index by (apply next_moves; lia).
  rewrite Hc. unfold cycle_effect. simpl.
  destruct (length (announcements (state d)) <=? 1)%nat eqn:El;
    [apply Nat.leb_le in El; lia|].
  simpl. by rewrite delete_delete_eq.
Qed.

(** C1. With two announcements or more and the index in range, on an
    item whose [display_duration] is a number of seconds other than 0
    (the data model has it positive): the advance timer is armed for that
    duration times 1000; when it fires [currentIndex] becomes
    [(currentIndex + 1) mod length], and a new timer, the only advance
    timer then live, is armed for the duration of the new current
    item. *)
Theorem rotation_step (d : Display) (a : Announcement) (seconds : Z) :
  reachable d →
  (2 ≤ length (announcements (state d)))%nat →
  index_in_range (state d) →
  JS.index (announcements (state d)) (currentIndex (state d)) = Some a →
  display_duration a = Some seconds → seconds ≠ 0 →
  ∃ h,
    cycleCleanup d = Some h ∧
    timers (browser d) !! h =
      Some {| repeating := false; delay := seconds * 1000;
              callback := AdvanceIndex (length (announcements (state d))) |} ∧
    let d' := dispatch (TimerFired h) d in
    announcements (state d') = announcements (state d) ∧
    currentIndex (state d') = (currentIndex (state d) + 1) `mod` len (state d) ∧
    index_in_range (state d') ∧
    ∃ h', h' ≠ h ∧ timers (browser d') !! h = None ∧
          cycleCleanup d' = Some h' ∧
          advance_timers (browser d') = {[ h' := cycle_timer (state d') ]} ∧
          ∀ a' seconds',
            JS.index (announcements (state d')) (currentIndex (state d')) = Some a' →
            display_duration a' = Some seconds' → seconds' ≠ 0 →
            cycle_timer (state d') =
              {| repeating := false; delay := seconds' * 1000;
                 callback := AdvanceIndex (length (announcements (state d))) |}.
Proof.
  intros Hr HN Hc Ha Hd Hnz.
  pose proof (reachable_inv d Hr) as HI.
  destruct (advance_timers_one d HI HN) as (h & Hcc & Hl & _).
  exists h. split; [done|]. split.
  { rewrite Hl. unfold cycle_timer.
    by rewrite (cycle_duration_item _ _ _ Ha Hd Hnz). }
  pose proof (reachable_inv _ (reachable_dispatch (TimerFired h) d Hr)) as HI'.
  revert HI'. destruct HI as [Hok Hidx].
  rewrite (fire_advance d h Hidx HN Hcc Hl). simpl. intros HI'.
  unfold index_in_range in Hc.
  assert (Hnext : JS.rem (currentIndex (state d) + 1) (len (state d)) =
                  (currentIndex (state d) + 1) `mod` len (state d))
    by (apply rem_mod; lia).
  split; [done|]. split; [done|]. split.
  { unfold index_in_range, len. simpl. fold (len (state d)).
    rewrite Hnext. apply Z.mod_pos_bound. lia. }
  destruct (ok_handle _ _ _ _ _ _ _ _ Hok h Hcc) as [Hlt _].
  exists (next_handle (browser d)). split; [lia|]. split.
  { rewrite lookup_insert_ne by lia. by rewrite lookup_delete_eq. }
  split; [done|]. split.
  { destruct (advance_timers_one _ HI' HN) as (h' & Hcc' & _ & Hone).
    simpl in Hcc', Hone. by simplify_eq. }
  intros a' seconds' Ha' Hd' Hnz'. unfold cycle_timer. simpl.
  by rewrite (cycle_duration_item
                (setCurrentIndex (λ prev, JS.rem (prev + 1) (len (state d)))
                   (state d)) _ _ Ha' Hd' Hnz').
Qed.

Lemma rotation_step_witness :
  reachable showing_abc ∧
  ∃ h, cycleCleanup showing_abc = Some h ∧
       timers (browser showing_abc) !! h =
         Some {| repeating := false; delay := 5000; callback := AdvanceIndex 3 |} ∧
       currentIndex (state (dispatch (TimerFired h) showing_abc)) = 1.
Proof.
  assert (Hr : reachable showing_abc) by (eexists; reflexivity).
  split; [exact Hr|].
  destruct (rotation_step showing_abc itemA 5 Hr)
    as (h & Hc & Hl & _ & Hi & _).
  - vm_compute. lia.
  - vm_compute. split; congruence.
  - reflexivity.
  - reflexivity.
  - discriminate.
  - exists h. split; [exact Hc|]. split; [exact Hl|exact Hi].
Defined.

(** The step on the default duration, from the invariant. *)
Lemma default_step (d : Display) :
  Inv d →
  (2 ≤ length (announcements (state d)))%nat →
  ¬ index_in_range (state d) ∨
  (∃ a, JS.index (announcements (state d)) (currentIndex (state d)) = Some a ∧
        (display_duration a = None ∨ display_duration a = Some 0)) →
  ∃ h,
    cycleCleanup d = Some h ∧
    timers (browser d) !! h =
      Some {| repeating := false; delay := 10 * 1000;
              callback := AdvanceIndex (length (announcements (state d))) |} ∧
    advance_timers (browser d) = {[ h := cycle_timer (state d) ]} ∧
    let d' := dispatch (TimerFired h) d in
    currentIndex (state d') = (currentIndex (state d) + 1) `mod` len (state d) ∧
    index_in_range (state d').
Proof.
  intros [Hok Hidx] HN Hcase.
  destruct (advance_timers_one d (conj Hok Hidx) HN) as (h & Hcc & Hl & Hone).
  exists h. split; [done|]. split.
  { rewrite Hl. unfold cycle_timer. by rewrite (cycle_duration_default _ Hcase). }
  split; [done|].
  rewrite (fire_advance d h Hidx HN Hcc Hl). simpl.
  assert (Hnext : JS.rem (currentIndex (state d) + 1) (len (state d)) =
                  (currentIndex (state d) + 1) `mod` len (state d))
    by (apply rem_mod; unfold len; lia).
  split; [done|].
  unfold index_in_range, len. simpl. fold (len (state d)).
  rewrite Hnext. apply Z.mod_pos_bound. unfold len. lia.
Qed.

(** C9. Outside those preconditions the step still goes through: with
    two announcements or more, if [currentIndex] is out of range, or the
    current item's [display_duration] is missing or 0, the advance timer
    is armed for the default of 10 seconds, and when it fires
    [currentIndex] becomes [(currentIndex + 1) mod length], which is in
    range. *)
Theorem rotation_default_duration (d : Display) :
  reachable d →
  (2 ≤ length (announcements (state d)))%nat →
  ¬ index_in_range (state d) ∨
  (∃ a, JS.index (announcements (state d)) (currentIndex (state d)) = Some a ∧
        (display_duration a = None ∨ display_duration a = Some 0)) →
  ∃ h,
    cycleCleanup d = Some h ∧
    timers (browser d) !! h =
      Some {| repeating := false; delay := 10 * 1000;
              callback := AdvanceIndex (length (announcements (state d))) |} ∧
    advance_timers (browser d) = {[ h := cycle_timer (state d) ]} ∧
    let d' := dispatch (TimerFired h) d in
    currentIndex (state d') = (currentIndex (state d) + 1) `mod` len (state d) ∧
    index_in_range (state d').
Proof. intros Hr. apply default_step, reachable_inv, Hr. Qed.

Lemma rotation_default_duration_witness :
  let d := shrunk_to [itemA; itemB] in
  reachable d ∧ ¬ index_in_range (state d) ∧
  ∃ h, timers (browser d) !! h =
         Some {| repeating := false; delay := 10000; callback := AdvanceIndex 2 |} ∧
       currentIndex (state (dispatch (TimerFired h) d)) = 1.
Proof.
  assert (Hr : reachable (shrunk_to [itemA; itemB])).
  { exists [ListResponse (list_ok (Some [itemA; itemB; itemC]));
            SettingsResponse (settings_ok 5);
            ClickDot 2; ListResponse (list_ok (Some [itemA; itemB]))].
    reflexivity. }
  assert (Hout : ¬ index_in_range (state (shrunk_to [itemA; itemB])))
    by (vm_compute; intros [_ Hlt]; discriminate Hlt).
  split; [exact Hr|]. split; [exact Hout|].
  destruct (rotation_default_duration (shrunk_to [itemA; itemB]) Hr)
    as (h & _ & Hl & _ & Hi & _).
  - vm_compute. lia.
  - left. exact Hout.
  - exists h. split; [exact Hl|exact Hi].
Defined.

(** A timer firing moves the index only if it is an advance timer. *)
Lemma fire_without_advance (d : Display) (h : nat) :
  Inv d → (length (announcements (state d)) ≤ 1)%nat →
  currentIndex (state (dispatch (TimerFired h) d)) = currentIndex (state d).
Proof.
  intros [Hok _] HN. rewrite dispatch_state. simpl.
  destruct (timers (browser d) !! h) as [t|] eqn:Hl; simpl; [|done].
  destruct (is_advance t) eqn:Ha.
  - destruct (ok_advance _ _ _ _ _ _ _ _ Hok _ _ Hl Ha) as (_ & _ & ?). lia.
  - unfold is_advance in Ha. by destruct (callback t).
Qed.

(** ** A single announcement *)

Lemma single_next (s : State) :
  length (announcements s) = 1%nat → currentIndex (handleNext s) = 0.
Proof.
  intros HN. unfold handleNext, len. simpl. rewrite HN. unfold JS.rem.
  apply Z.rem_1_r.
Qed.

Lemma single_prev (s : State) :
  length (announcements s) = 1%nat → currentIndex (handlePrev s) = 0.
Proof.
  intros HN. unfold handlePrev, len. simpl. rewrite HN. unfold JS.rem.
  apply Z.rem_1_r.
Qed.

Lemma setCurrentIndex_id (f : Z → Z) (s : State) :
  f (currentIndex s) = currentIndex s → setCurrentIndex f s = s.
Proof. intros Hf. unfold setCurrentIndex. rewrite Hf. by destruct s. Qed.

(** C7, as amended.  With a single announcement no advance timer is
    live and the cycle effect returns at its guard without arming one;
    manual next and prev give index 0, so with [currentIndex] at 0 they
    leave it at 0: they change nothing at all in the component. *)
Theorem single_item (d : Display) :
  reachable d →
  length (announcements (state d)) = 1%nat →
  advance_timers (browser d) = ∅ ∧
  (∀ b, cycle_effect (state d) b = (b, None)) ∧
  (∀ e, length (announcements (state (dispatch e d))) = 1%nat →
        advance_timers (browser (dispatch e d)) = ∅) ∧
  currentIndex (handleNext (state d)) = 0 ∧
  currentIndex (handlePrev (state d)) = 0 ∧
  (currentIndex (state d) = 0 →
     dispatch ClickNext d = d ∧ dispatch ClickPrev d = d).
Proof.
  intros Hr HN.
  split. { destruct (reachable_inv d Hr) as [Hok _].
           apply (advance_timers_none _ _ Hok). lia. }
  split. { intros b. unfold cycle_effect. by rewrite HN. }
  split. { intros e HN'.
           destruct (reachable_inv _ (reachable_dispatch e d Hr)) as [Hok _].
           apply (advance_timers_none _ _ Hok). lia. }
  split; [by apply single_next|]. split; [by apply single_prev|].
  intros H0. unfold dispatch. simpl.
  assert (Hn : handleNext (state d) = state d).
  { apply setCurrentIndex_id. pose proof (single_next _ HN) as H. simpl in H.
    by rewrite H0 in *. }
  assert (Hp : handlePrev (state d) = state d).
  { apply setCurrentIndex_id. pose proof (single_prev _ HN) as H. simpl in H.
    by rewrite H0 in *. }
  rewrite Hn, Hp. destruct (controls_rendered (state d)); by rewrite commit_same.
Qed.

Lemma single_item_witness :
  reachable showing_a ∧
  advance_timers (browser showing_a) = ∅ ∧
  dispatch ClickNext showing_a = showing_a ∧
  dispatch ClickPrev showing_a = showing_a.
Proof.
  assert (Hr : reachable showing_a) by (eexists; reflexivity).
  split; [exact Hr|].
  destruct (single_item showing_a Hr eq_refl) as (Hnone & _ & _ & _ & _ & Hnoop).
  split; [exact Hnone|]. exact (Hnoop eq_refl).
Defined.

(** C7 as stated fails on a single announcement shown under an index
    other than 0.  The display shows [A; B; C] at index 2 when a poll
    returns [A]: the list has length 1 and the index is 2.  Next and prev
    are then no no-ops: each moves the index to 0. *)
Lemma single_item_next_moves :
  let d := shrunk_to [itemA] in
  reachable d ∧
  length (announcements (state d)) = 1%nat ∧
  controls_rendered (state d) = true ∧
  currentIndex (state d) = 2 ∧
  currentIndex (state (dispatch ClickNext d)) = 0 ∧
  currentIndex (state (dispatch ClickPrev d)) = 0 ∧
  dispatch ClickNext d ≠ d ∧
  dispatch ClickPrev d ≠ d.
Proof.
  split.
  { exists [ListResponse (list_ok (Some [itemA; itemB; itemC]));
            SettingsResponse (settings_ok 5);
            ClickDot 2; ListResponse (list_ok (Some [itemA]))].
    reflexivity. }
  split; [by vm_compute|]. split; [by vm_compute|]. split; [by vm_compute|].
  split; [by vm_compute|]. split; [by vm_compute|].
  split; intros Heq;
    apply (f_equal (λ d, currentIndex (state d))) in Heq;
    vm_compute in Heq; discriminate Heq.
Qed.

(** ** List replacement *)

(** What replacing the list does to the index: nothing, so an index in
    range of the new list is kept and never reset to 0.  The only step
    that brings an index out of range back is the advance timer, with
    two items or more: the cycle effect arms it for the default 10
    seconds, and when it fires the index becomes
    [(currentIndex + 1) mod length], which is in range. *)
Theorem list_replacement (d : Display) (l : option (list Announcement)) :
  reachable d →
  let d' := dispatch (ListResponse (list_ok l)) d in
  announcements (state d') = default [] l ∧
  currentIndex (state d') = currentIndex (state d) ∧
  ((2 ≤ length (announcements (state d')))%nat →
   ¬ index_in_range (state d') →
   ∃ h,
     cycleCleanup d' = Some h ∧
     timers (browser d') !! h =
       Some {| repeating := false; delay := 10 * 1000;
               callback := AdvanceIndex (length (announcements (state d'))) |} ∧
     let d'' := dispatch (TimerFired h) d' in
     currentIndex (state d'') =
       (currentIndex (state d) + 1) `mod` len (state d') ∧
     index_in_range (state d'')).
Proof.
  intros Hr d'.
  assert (Hi : currentIndex (state d') = currentIndex (state d))
    by (unfold d'; by rewrite dispatch_state).
  split; [unfold d'; by rewrite dispatch_state|]. split; [done|].
  intros HN Hout.
  destruct (default_step d' (reachable_inv _ (reachable_dispatch _ _ Hr)) HN
              (or_introl Hout)) as (h & Hc & Hl & _ & Hnext & Hin).
  exists h. rewrite <- Hi. done.
Qed.

Lemma list_replacement_witness :
  reachable (dispatch (ClickDot 2) showing_abc) ∧
  let d' := shrunk_to [itemA; itemB] in
  currentIndex (state d') = 2 ∧
  ∃ h, timers (browser d') !! h =
         Some {| repeating := false; delay := 10000; callback := AdvanceIndex 2 |} ∧
       currentIndex (state (dispatch (TimerFired h) d')) = 1.
Proof.
  assert (Hr : reachable (dispatch (ClickDot 2) showing_abc)).
  { exists [ListResponse (list_ok (Some [itemA; itemB; itemC]));
            SettingsResponse (settings_ok 5); ClickDot 2].
    reflexivity. }
  split; [exact Hr|].
  destruct (list_replacement _ (Some [itemA; itemB]) Hr) as (_ & Hi & Hstep).
  split; [exact Hi|].
  destruct Hstep as (h & _ & Hl & Hnext & _).
  - vm_compute. lia.
  - vm_compute. intros [_ Hlt]. discriminate Hlt.
  - exists h. split; [exact Hl|exact Hnext].
Defined.

(** C3.  An index that a shorter list leaves out of range is to be
    brought back by the modulo rule on the next reconciliation; the code
    has no such step.  With index 2 in range of [A; B; C], the list is
    replaced by [A]: the index is still 2, out of range of the new list;
    no advance timer is armed, so no timer that fires moves it, and a
    further poll returning [A] leaves it at 2 as well.  Meanwhile the one
    slide of the render is not the active one: the stage is blank over a
    list that is not empty. *)
Lemma shrink_to_one_not_clamped :
  let d := dispatch (ClickDot 2) showing_abc in
  let d' := dispatch (ListResponse (list_ok (Some [itemA]))) d in
  index_in_range (state d) ∧
  currentIndex (state d) = 2 ∧
  length (announcements (state d')) = 1%nat ∧
  currentIndex (state d') = 2 ∧
  ¬ index_in_range (state d') ∧
  advance_timers (browser d') = ∅ ∧
  (∀ h, currentIndex (state (dispatch (TimerFired h) d')) = 2) ∧
  currentIndex
    (state (dispatch (ListResponse (list_ok (Some [itemA]))) d')) = 2 ∧
  isActive <$> slides (state d') = [false].
Proof.
  assert (Hr : reachable (shrunk_to [itemA])).
  { exists [ListResponse (list_ok (Some [itemA; itemB; itemC]));
            SettingsResponse (settings_ok 5);
            ClickDot 2; ListResponse (list_ok (Some [itemA]))].
    reflexivity. }
  split; [by vm_compute|]. split; [by vm_compute|]. split; [by vm_compute|].
  split; [by vm_compute|].
  split; [vm_compute; intros [_ Hlt]; discriminate Hlt|].
  split; [by vm_compute|]. split; [|by vm_compute].
  intros h. apply (fire_without_advance (shrunk_to [itemA]) h).
  - by apply reachable_inv.
  - vm_compute. lia.
Qed.

(** ** One advance timer *)

Lemma navigation_keeps_list (e : Event) (d : Display) :
  is_navigation e = true →
  announcements (state (dispatch e d)) = announcements (state d).
Proof.
  intros Hnav. rewrite dispatch_state.
  destruct e; try discriminate; simpl;
    match goal with |- context [if ?c then _ else _] => by destruct c end.
Qed.

Lemma navigations_keep_list (clicks : list Event) (d : Display) :
  Forall (λ e, is_navigation e = true) clicks →
  announcements (state (run clicks d)) = announcements (state d).
Proof.
  intros Hall. revert d.
  induction Hall as [|e clicks He _ IH]; intros d; simpl; [done|].
  by rewrite IH, navigation_keeps_list.
Qed.

(** C2. After every sequence of events at most one advance timer is
    live, and so it is at every instant of handling a further event:
    after its handler, after the cleanups, after the effects.  Whenever
    the event changes [currentIndex] or replaces the list, the cleanup
    has cancelled the armed timer, none is left, before the effect arms
    the new one.  A burst of manual navigation that starts while a dwell
    timer is armed, which on a reachable instance is to say with two
    items or more, leaves exactly one timer armed. *)
Theorem single_advance_timer (evs : list Event) :
  let d := run evs mount in
  (size (advance_timers (browser d)) ≤ 1)%nat ∧
  (∀ e,
     let d1 := (handler e d).1 in
     let new := (handler e d).2 in
     (size (advance_timers (browser d1)) ≤ 1)%nat ∧
     (size (advance_timers (cleanup_phase new d1)) ≤ 1)%nat ∧
     (cycle_deps_changed (state d) new = true →
        advance_timers (cleanup_phase new d1) = ∅) ∧
     (size (advance_timers (browser (dispatch e d))) ≤ 1)%nat) ∧
  (advance_timers (browser d) ≠ ∅ ↔
     (2 ≤ length (announcements (state d)))%nat) ∧
  (advance_timers (browser d) ≠ ∅ →
   ∀ clicks, Forall (λ e, is_navigation e = true) clicks →
     size (advance_timers (browser (run clicks d))) = 1%nat).
Proof.
  intros d.
  assert (Hr : reachable d) by (by exists evs).
  pose proof (reachable_inv d Hr) as HI.
  assert (Hsize : ∀ d0, reachable d0 →
            (size (advance_timers (browser d0)) ≤ 1)%nat).
  { intros d0 Hr0. destruct (reachable_inv d0 Hr0) as [Hok _].
    eapply at_most_one_size, ok_at_most_one, Hok. }
  assert (Harmed : advance_timers (browser d) ≠ ∅ ↔
                   (2 ≤ length (announcements (state d)))%nat).
  { split.
    - intros Hne.
      destruct (decide (2 ≤ length (announcements (state d)))%nat); [done|].
      destruct Hne. apply (advance_timers_none _ _ (proj1 HI)). lia.
    - intros HN. destruct (advance_timers_one _ HI HN) as (h & _ & _ & ->).
      apply insert_non_empty. }
  split; [by apply Hsize|]. split; [|split; [done|]].
  - intros e d1 new.
    destruct (handler_ok e d HI) as (Hs & Hok & _ & _). fold d1 new in Hs, Hok.
    split; [eapply at_most_one_size, ok_at_most_one, Hok|].
    split; [eapply at_most_one_size, cleanup_phase_at_most_one, Hok|].
    split; [|apply Hsize, reachable_dispatch, Hr].
    intros Hc. apply (cleanup_phase_clears _ _ _ Hok). by rewrite Hs.
  - intros Hne clicks Hnav. apply Harmed in Hne.
    pose proof (reachable_inv _ (reachable_run clicks d Hr)) as HI'.
    destruct (advance_timers_one _ HI') as (h & _ & _ & ->).
    + by rewrite navigations_keep_list.
    + apply map_size_singleton.
Qed.

Lemma single_advance_timer_witness :
  size (advance_timers
          (browser (run [ClickNext; ClickNext; ClickPrev; ClickDot 2; ClickNext;
                         ClickNext; ClickPrev; ClickPrev; ClickDot 0; ClickNext]
                      showing_abc))) = 1%nat.
Proof.
  refine (proj2 (proj2 (proj2 (single_advance_timer
            [ListResponse (list_ok (Some [itemA; itemB; itemC]));
             SettingsResponse (settings_ok 5)]))) _ _ _).
  - vm_compute. discriminate.
  - repeat constructor.
Defined.

(** * Further properties of the component *)

(** ** The index under every event *)

Lemma handler_list_length (e : Event) (d : Display) :
  replaces_list e = false →
  announcements (handler e d).2 = announcements (state d).
Proof.
  intros He. destruct e as [h| | |idx|r|r]; simpl in *.
  - destruct (timers (browser d) !! h) as [t|]; simpl; [|done].
    by destruct (callback t).
  - by destruct (controls_rendered (state d)).
  - by destruct (controls_rendered (state d)).
  - by destruct (controls_rendered (state d) && _).
  - by destruct (error r).
  - by destruct (data r).
Qed.

Lemma handler_index (e : Event) (d : Display) :
  Inv d → index_in_range (state d) →
  0 ≤ currentIndex (handler e d).2 < len (state d).
Proof.
  intros [Hok Hidx] Hr. unfold index_in_range in Hr.
  destruct e as [h| | |idx|r|r]; simpl.
  - destruct (timers (browser d) !! h) as [t|] eqn:Hl; simpl; [|done].
    destruct (is_advance t) eqn:Ha.
    + destruct (ok_advance _ _ _ _ _ _ _ _ Hok _ _ Hl Ha) as (_ & -> & _).
      simpl. fold (len (state d)). rewrite rem_mod by lia.
      apply Z.mod_pos_bound. lia.
    + unfold is_advance in Ha. by destruct (callback t).
  - destruct (controls_rendered (state d)); simpl; [|done].
    rewrite rem_mod by lia. apply Z.mod_pos_bound. lia.
  - destruct (controls_rendered (state d)); simpl; [|done].
    rewrite rem_mod by lia. apply Z.mod_pos_bound. lia.
  - destruct (controls_rendered (state d)); simpl; [|done].
    destruct (idx <? length (announcements (state d)))%nat eqn:Hlt; simpl; [|done].
    apply Nat.ltb_lt in Hlt. unfold len. lia.
  - by destruct (error r).
  - by destruct (data r).
Qed.

(** X1. [currentIndex] is never negative.  An index in range stays in
    range under every event except a list replacement too short for it;
    and with the controls on screen, next, prev and a click on an
    existing dot always end in range, wherever the index was. *)
Theorem index_range_kept (d : Display) (e : Event) :
  reachable d →
  let d' := dispatch e d in
  0 ≤ currentIndex (state d') ∧
  (index_in_range (state d) → replaces_list e = false →
     index_in_range (state d')) ∧
  (index_in_range (state d) → currentIndex (state d) < len (state d') →
     index_in_range (state d')) ∧
  (controls_rendered (state d) = true →
   e = ClickNext ∨ e = ClickPrev ∨
   (∃ idx, e = ClickDot idx ∧ (idx < length (announcements (state d)))%nat) →
     index_in_range (state d')).
Proof.
  intros Hr d'.
  pose proof (reachable_inv d Hr) as HI.
  destruct (reachable_inv d' (reachable_dispatch e d Hr)) as [_ Hidx'].
  split; [done|].
  assert (Hkeep : index_in_range (state d) → replaces_list e = false →
                  index_in_range (state d')).
  { intros Hin He. unfold index_in_range, len, d'. rewrite dispatch_state.
    rewrite (handler_list_length e d He). by apply handler_index. }
  split; [done|]. split.
  - intros Hin Hlt. destruct (replaces_list e) eqn:He; [|by apply Hkeep].
    destruct e as [| | | |r|]; try discriminate. simpl in He.
    unfold index_in_range, d' in *. rewrite dispatch_state in *. simpl in *.
    destruct (error r); [discriminate|]. simpl in *. lia.
  - intros Hcr He.
    destruct (controls_rendered_nonempty _ Hcr) as [_ HN].
    destruct HI as [_ Hidx].
    unfold index_in_range, len, d'. rewrite dispatch_state.
    destruct He as [->|[->|(idx & -> & Hlt)]]; simpl; rewrite Hcr; simpl.
    + fold (len (state d)). rewrite rem_mod by (unfold len; lia).
      apply Z.mod_pos_bound. unfold len. lia.
    + fold (len (state d)). rewrite rem_mod by (unfold len; lia).
      apply Z.mod_pos_bound. unfold len. lia.
    + apply Nat.ltb_lt in Hlt as Hb. rewrite Hb. simpl. lia.
Qed.

Lemma index_range_kept_witness :
  reachable (shrunk_to [itemA]) ∧
  index_in_range (state (dispatch ClickNext (shrunk_to [itemA]))).
Proof.
  assert (Hr : reachable (shrunk_to [itemA])).
  { exists [ListResponse (list_ok (Some [itemA; itemB; itemC]));
            SettingsResponse (settings_ok 5);
            ClickDot 2; ListResponse (list_ok (Some [itemA]))].
    reflexivity. }
  split; [exact Hr|].
  destruct (index_range_kept (shrunk_to [itemA]) ClickNext Hr) as (_ & _ & _ & Hnav).
  apply Hnav; [reflexivity|]. by left.
Defined.

(** ** Preloading ahead of the rotation *)

Lemma loaded_next (s : State) :
  0 ≤ currentIndex s → (1 ≤ length (announcements s))%nat →
  JS.rem (currentIndex s + 1) (len s) ∈ loaded_indices s.
Proof.
  intros Hc HN. apply elem_of_loaded_indices. split.
  - unfold isItemLoaded.
    destruct (length (announcements s) <=? 1)%nat; [done|].
    by rewrite Z.eqb_refl, orb_true_r.
  - rewrite rem_mod by (unfold len; lia). apply Z.mod_pos_bound. unfold len. lia.
Qed.

Lemma loaded_prev (s : State) :
  0 ≤ currentIndex s → (1 ≤ length (announcements s))%nat →
  JS.rem (currentIndex s - 1 + len s) (len s) ∈ loaded_indices s.
Proof.
  intros Hc HN. apply elem_of_loaded_indices. split.
  - unfold isItemLoaded.
    destruct (length (announcements s) <=? 1)%nat; [done|].
    by rewrite Z.eqb_refl, !orb_true_r.
  - rewrite rem_mod by (unfold len; lia). apply Z.mod_pos_bound. unfold len. lia.
Qed.

(** X2. The item a step leads to is materialised before the step: on a
    reachable display with at least one announcement, the index that
    next, prev or, with two or more, the expiry of the advance timer
    moves to is one of the loaded indices of the current render, in
    range or not as the current index may be. *)
Theorem step_target_preloaded (d : Display) :
  reachable d →
  (1 ≤ length (announcements (state d)))%nat →
  currentIndex (handleNext (state d)) ∈ loaded_indices (state d) ∧
  currentIndex (handlePrev (state d)) ∈ loaded_indices (state d) ∧
  ((2 ≤ length (announcements (state d)))%nat →
     currentIndex (state (expire d)) ∈ loaded_indices (state d)).
Proof.
  intros Hr HN. destruct (reachable_inv d Hr) as [Hok Hidx].
  split; [by apply loaded_next|]. split; [by apply loaded_prev|].
  intros HN2.
  destruct (advance_timers_one d (conj Hok Hidx) HN2) as (h & Hc & Hl & _).
  unfold expire. rewrite Hc, (fire_advance d h Hidx HN2 Hc Hl). simpl.
  by apply loaded_next.
Qed.

Lemma step_target_preloaded_witness :
  reachable showing_abc ∧
  currentIndex (state (expire showing_abc)) ∈ loaded_indices (state showing_abc).
Proof.
  assert (Hr : reachable showing_abc) by (eexists; reflexivity).
  split; [exact Hr|].
  destruct (step_target_preloaded showing_abc Hr) as (_ & _ & Hexp).
  - vm_compute. lia.
  - apply Hexp. vm_compute. lia.
Defined.

(** ** The rotation as a cycle *)

Lemma expire_reachable (d : Display) : reachable d → reachable (expire d).
Proof.
  intros Hr. unfold expire. destruct (cycleCleanup d); [|done].
  by apply reachable_dispatch.
Qed.

Lemma expire_step (d : Display) :
  reachable d → (2 ≤ length (announcements (state d)))%nat →
  announcements (state (expire d)) = announcements (state d) ∧
  currentIndex (state (expire d)) =
    (currentIndex (state d) + 1) `mod` len (state d).
Proof.
  intros Hr HN. destruct (reachable_inv d Hr) as [Hok Hidx].
  destruct (advance_timers_one d (conj Hok Hidx) HN) as (h & Hc & Hl & _).
  unfold expire. rewrite Hc, (fire_advance d h Hidx HN Hc Hl). simpl.
  split; [done|]. apply rem_mod; unfold len; lia.
Qed.

(** X3. Left alone, the rotation visits the items in cyclic order: on a
    reachable display with two announcements or more, after [k + 1]
    expiries of the advance timer the list is the same and the index is
    [(currentIndex + k + 1) mod length]; from an index in range that
    holds for [k] expiries too, so [length] expiries bring the same item
    back. *)
Theorem rotation_cycles (d : Display) (k : nat) :
  reachable d →
  (2 ≤ length (announcements (state d)))%nat →
  announcements (state (Nat.iter k expire d)) = announcements (state d) ∧
  currentIndex (state (Nat.iter (S k) expire d)) =
    (currentIndex (state d) + Z.of_nat (S k)) `mod` len (state d) ∧
  (index_in_range (state d) →
     currentIndex (state (Nat.iter k expire d)) =
       (currentIndex (state d) + Z.of_nat k) `mod` len (state d) ∧
     currentIndex
       (state (Nat.iter (length (announcements (state d))) expire d)) =
       currentIndex (state d)).
Proof.
  intros Hr HN.
  assert (Hiter : ∀ n, reachable (Nat.iter n expire d) ∧
            announcements (state (Nat.iter n expire d)) = announcements (state d) ∧
            currentIndex (state (Nat.iter (S n) expire d)) =
              (currentIndex (state d) + Z.of_nat (S n)) `mod` len (state d)).
  { induction n as [|n (IHr & IHa & IHi)].
    - simpl. split; [done|]. split; [done|].
      destruct (expire_step d Hr HN) as [_ ->]. done.
    - assert (Hr' : reachable (Nat.iter (S n) expire d))
        by (simpl; by apply expire_reachable).
      assert (HN' : (2 ≤ length (announcements (state (Nat.iter n expire d))))%nat)
        by (by rewrite IHa).
      destruct (expire_step _ IHr HN') as [Ha _].
      assert (Ha' : announcements (state (Nat.iter (S n) expire d)) =
                    announcements (state d)) by (simpl; by rewrite Ha).
      split; [done|]. split; [done|].
      destruct (expire_step _ Hr') as [_ Hi]; [by rewrite Ha'|].
      change (Nat.iter (S (S n)) expire d)
        with (expire (Nat.iter (S n) expire d)).
      rewrite Hi, IHi. unfold len. rewrite Ha'.
      rewrite Z.add_mod_idemp_l by lia. f_equal. lia. }
  split; [apply Hiter|]. split; [apply Hiter|].
  intros Hin. unfold index_in_range in Hin.
  assert (Hk : ∀ n, currentIndex (state (Nat.iter n expire d)) =
                    (currentIndex (state d) + Z.of_nat n) `mod` len (state d)).
  { intros [|n]; [|apply Hiter].
    simpl. rewrite Z.add_0_r, Z.mod_small; done. }
  split; [apply Hk|].
  rewrite Hk. fold (len (state d)).
  replace (currentIndex (state d) + len (state d))
    with (currentIndex (state d) + 1 * len (state d)) by lia.
  rewrite Z.mod_add by lia. apply Z.mod_small. done.
Qed.

Lemma rotation_cycles_witness :
  reachable showing_abc ∧
  currentIndex (state (Nat.iter 3 expire showing_abc)) =
    currentIndex (state showing_abc).
Proof.
  assert (Hr : reachable showing_abc) by (eexists; reflexivity).
  split; [exact Hr|].
  destruct (rotation_cycles showing_abc 0 Hr) as (_ & _ & Hin).
  - vm_compute. lia.
  - destruct Hin as [_ Hback]; [vm_compute; split; congruence|].
    exact Hback.
Defined.

(** ** The timers the component owns *)

(** A commit adds to the table nothing but the timers of its two
    effects. *)
Lemma commit_lookup (new : State) (d : Display) (h : nat) (t : Timer) :
  timers (browser (commit new d)) !! h = Some t →
  timers (browser d) !! h = Some t ∨ t = poll_timer new ∨ t = cycle_timer new.
Proof.
  unfold commit, cleanup_phase, effect_phase, poll_effect, cycle_effect.
  change (poll_cleanup (pollCleanup d) (browser d))
    with (cycle_cleanup (pollCleanup d) (browser d)).
  destruct (poll_deps_changed (state d) new),
    (cycle_deps_changed (state d) new),
    (length (announcements new) <=? 1)%nat,
    (pollCleanup d), (cycleCleanup d); simpl; intros Hl;
    repeat (apply lookup_insert_Some in Hl as [[_ <-]|[_ Hl]]; [by auto|]);
    repeat (apply lookup_delete_Some in Hl as [_ Hl]); auto.
Qed.

(** It takes from the table nothing but what its two cleanups hold. *)
Lemma commit_keeps (new : State) (d : Display) (h : nat) (t : Timer) :
  timers (browser d) !! h = Some t →
  (h < next_handle (browser d))%nat →
  pollCleanup d ≠ Some h → cycleCleanup d ≠ Some h →
  timers (browser (commit new d)) !! h = Some t.
Proof.
  intros Hl Hlt Hp Hc.
  unfold commit, cleanup_phase, effect_phase, poll_effect, cycle_effect.
  change (poll_cleanup (pollCleanup d) (browser d))
    with (cycle_cleanup (pollCleanup d) (browser d)).
  destruct (poll_deps_changed (state d) new),
    (cycle_deps_changed (state d) new),
    (length (announcements new) <=? 1)%nat,
    (pollCleanup d) as [p|], (cycleCleanup d) as [c|]; simpl;
    rewrite ?lookup_insert_ne by lia;
    rewrite ?lookup_delete_ne by congruence; done.
Qed.

Lemma mount_own : OwnTimers mount.
Proof.
  split; [done|]. intros h t Hl. simpl in Hl.
  apply lookup_insert_Some in Hl as [[<- <-]|[_ Hl]]; [by auto|].
  apply lookup_insert_Some in Hl as [[<- <-]|[_ Hl]]; [by auto|].
  by rewrite lookup_empty in Hl.
Qed.

Lemma dispatch_own (e : Event) (d : Display) :
  Inv d → OwnTimers d → OwnTimers (dispatch e d).
Proof.
  intros HI [Hka Hown].
  pose proof (dispatch_inv e d HI) as [Hok' _].
  destruct (handler_ok e d HI) as (Hs & Hok1 & _ & _).
  assert (Hold : ∀ h t, timers (browser (handler e d).1) !! h = Some t →
                        timers (browser d) !! h = Some t).
  { intros h t. destruct e as [k| | | |r|r]; simpl; try done.
    - destruct (timers (browser d) !! k) as [u|]; simpl; [|done].
      destruct (repeating u); simpl; [done|].
      intros Hl. by apply lookup_delete_Some in Hl as [_ Hl].
    - by destruct (error r). }
  assert (Hka1 : timers (browser (handler e d).1) !! keepAliveInterval
                 = Some keepAlive_timer).
  { destruct e as [k| | | |r|r]; simpl; try done.
    - destruct (timers (browser d) !! k) as [u|] eqn:Hk; simpl; [|done].
      destruct (repeating u) eqn:Hu; simpl; [done|].
      rewrite lookup_delete_ne; [done|]. intros ->.
      rewrite Hka in Hk. by simplify_eq.
    - by destruct (error r). }
  assert (Hka' : timers (browser (dispatch e d)) !! keepAliveInterval
                 = Some keepAlive_timer).
  { unfold dispatch. destruct (handler e d) as [d1 new]. simpl in *.
    apply commit_keeps; [done| | |].
    - by apply (ok_fresh _ _ _ _ _ _ _ _ Hok1 _ _ Hka1).
    - intros Hp. destruct (ok_poll _ _ _ _ _ _ _ _ Hok1) as (p & Hp' & Hpt).
      rewrite Hp in Hp'. simplify_eq.
    - intros Hc. destruct (ok_handle _ _ _ _ _ _ _ _ Hok1 _ Hc) as [_ Ha].
      by specialize (Ha _ Hka1). }
  split; [done|]. intros h t Hl.
  destruct (is_fetch t) eqn:Hf.
  { right. left. pose proof (ok_fetch _ _ _ _ _ _ _ _ Hok' _ _ Hl Hf) as Hp.
    split; [done|].
    destruct (ok_poll _ _ _ _ _ _ _ _ Hok') as (p & Hp' & Hpt). congruence. }
  destruct (is_advance t) eqn:Ha.
  { right. right.
    by destruct (ok_advance _ _ _ _ _ _ _ _ Hok' _ _ Hl Ha) as (? & ? & _). }
  left.
  assert (Hl1 : timers (browser (handler e d).1) !! h = Some t).
  { revert Hl. unfold dispatch. destruct (handler e d) as [d1 new]. simpl.
    intros Hl. destruct (commit_lookup _ _ _ _ Hl) as [?|[->| ->]]; done. }
  destruct (Hown _ _ (Hold _ _ Hl1)) as [?|[[_ ->]|[_ ->]]]; done.
Qed.

Lemma reachable_own (d : Display) : reachable d → OwnTimers d.
Proof.
  intros [evs ->].
  assert (H : ∀ d0, Inv d0 → OwnTimers d0 →
                    Inv (run evs d0) ∧ OwnTimers (run evs d0)).
  { induction evs as [|e evs IH]; intros d0 HI Ho; simpl; [done|].
    apply IH; [by apply dispatch_inv|by apply dispatch_own]. }
  apply H; [apply mount_inv|apply mount_own].
Qed.

(** X4. The keep-awake interval does not depend on the rotation:
    whatever the events, it stays live under the handle it got at mount,
    with its period of 10 seconds, and the table holds nothing but it,
    the poll interval and, with two announcements or more, the advance
    timer. *)
Theorem keep_alive_untouched (evs : list Event) :
  let d := run evs mount in
  timers (browser d) !! keepAliveInterval =
    Some {| repeating := true; delay := 10000; callback := KeepAlive |} ∧
  (∀ h t, timers (browser d) !! h = Some t →
     callback t = KeepAlive → h = keepAliveInterval) ∧
  size (timers (browser d)) =
    (if decide (2 ≤ length (announcements (state d)))%nat then 3 else 2)%nat.
Proof.
  intros d.
  assert (Hr : reachable d) by (by exists evs).
  destruct (reachable_own d Hr) as [Hka Hown].
  pose proof (reachable_inv d Hr) as HI. destruct HI as [Hok Hidx].
  destruct (ok_poll _ _ _ _ _ _ _ _ Hok) as (p & Hp & Hpt).
  split; [done|]. split.
  { intros h t Hl Hcb.
    destruct (Hown _ _ Hl) as [[? _]|[[_ ->]|[_ ->]]]; [done|done|done]. }
  assert (Hpk : p ≠ keepAliveInterval)
    by (intros ->; rewrite Hka in Hpt; discriminate).
  case_decide as HN.
  - destruct (ok_armed _ _ _ _ _ _ _ _ Hok HN) as (c & Hc & Hct).
    assert (Hck : c ≠ keepAliveInterval)
      by (intros ->; rewrite Hka in Hct; discriminate).
    assert (Hcp : c ≠ p) by (intros ->; rewrite Hpt in Hct; discriminate).
    assert (HT : timers (browser d) =
      <[c := cycle_timer (state d)]>
        (<[p := poll_timer (state d)]> {[ keepAliveInterval := keepAlive_timer ]})).
    { apply map_eq. intros h.
      destruct (decide (h = c)) as [->|Hhc]; [by rewrite lookup_insert_eq|].
      rewrite lookup_insert_ne by done.
      destruct (decide (h = p)) as [->|Hhp]; [by rewrite lookup_insert_eq|].
      rewrite lookup_insert_ne by done.
      destruct (decide (h = keepAliveInterval)) as [->|Hhk];
        [by rewrite lookup_singleton_eq|].
      rewrite lookup_singleton_ne by done.
      destruct (timers (browser d) !! h) as [t|] eqn:Hl; [|done].
      destruct (Hown _ _ Hl) as [[? _]|[[? _]|[? _]]]; congruence. }
    rewrite HT. rewrite !map_size_insert_None, map_size_singleton; [done| |].
    + by rewrite lookup_singleton_ne.
    + rewrite lookup_insert_ne by done. by rewrite lookup_singleton_ne.
  - assert (HT : timers (browser d) =
      <[p := poll_timer (state d)]> {[ keepAliveInterval := keepAlive_timer ]}).
    { apply map_eq. intros h.
      destruct (decide (h = p)) as [->|Hhp]; [by rewrite lookup_insert_eq|].
      rewrite lookup_insert_ne by done.
      destruct (decide (h = keepAliveInterval)) as [->|Hhk];
        [by rewrite lookup_singleton_eq|].
      rewrite lookup_singleton_ne by done.
      destruct (timers (browser d) !! h) as [t|] eqn:Hl; [|done].
      destruct (Hown _ _ Hl) as [[? _]|[[? _]|[Hc ->]]]; [congruence..|].
      destruct (ok_advance _ _ _ _ _ _ _ _ Hok _ _ Hl eq_refl) as (_ & _ & ?).
      lia. }
    rewrite HT. rewrite map_size_insert_None, map_size_singleton; [done|].
    by rewrite lookup_singleton_ne.
Qed.

(** X5. Unmounting leaves no timer behind: after the cleanups of the
    three effects the timer table of a reachable display is empty. *)
Theorem unmount_clears_timers (evs : list Event) :
  timers (unmount (run evs mount)) = ∅.
Proof.
  set (d := run evs mount).
  assert (Hr : reachable d) by (by exists evs).
  destruct (reachable_own d Hr) as [_ Hown].
  unfold unmount.
  change (poll_cleanup (pollCleanup d)
            (Window.clearInterval keepAliveInterval (browser d)))
    with (cycle_cleanup (pollCleanup d)
            (Window.clearInterval keepAliveInterval (browser d))).
  destruct (timers_cleanup (cycleCleanup d)
              (cycle_cleanup (pollCleanup d)
                 (Window.clearInterval keepAliveInterval (browser d))))
    as (-> & _).
  destruct (timers_cleanup (pollCleanup d)
              (Window.clearInterval keepAliveInterval (browser d)))
    as (-> & _).
  simpl. apply map_eq. intros h. rewrite lookup_empty.
  destruct (clear_handle _ _ !! h) as [t|] eqn:Hl; [|done]. exfalso.
  assert (Hin : timers (browser d) !! h = Some t ∧ h ≠ keepAliveInterval ∧
                pollCleanup d ≠ Some h ∧ cycleCleanup d ≠ Some h).
  { destruct (cycleCleanup d) as [c|], (pollCleanup d) as [p|]; simpl in Hl;
      repeat (apply lookup_delete_Some in Hl as [? Hl]);
      repeat split; congruence. }
  destruct Hin as (Hl0 & Hk & Hp & Hc).
  destruct (Hown _ _ Hl0) as [[? _]|[[? _]|[? _]]]; done.
Qed.

Lemma keep_alive_untouched_witness :
  timers (browser showing_abc) !! keepAliveInterval = Some keepAlive_timer ∧
  size (timers (browser showing_abc)) = 3%nat.
Proof.
  destruct (keep_alive_untouched
              [ListResponse (list_ok (Some [itemA; itemB; itemC]));
               SettingsResponse (settings_ok 5)]) as (Hka & _ & Hsize).
  split; [exact Hka|exact Hsize].
Defined.

(** ** When the dwell clock restarts *)

Lemma handler_ref (e : Event) (d : Display) :
  replaces_list e = false →
  announcements_ref (handler e d).2 = announcements_ref (state d).
Proof.
  intros He. destruct e as [h| | |idx|r|r]; simpl in *.
  - destruct (timers (browser d) !! h) as [t|]; simpl; [|done].
    by destruct (callback t).
  - by destruct (controls_rendered (state d)).
  - by destruct (controls_rendered (state d)).
  - by destruct (controls_rendered (state d) && _).
  - by destruct (error r).
  - by destruct (data r).
Qed.

Lemma handler_refresh (e : Event) (d : Display) :
  is_settings_response e = false →
  refreshInterval (handler e d).2 = refreshInterval (state d).
Proof.
  intros He. destruct e as [h| | |idx|r|r]; simpl in *; try discriminate.
  - destruct (timers (browser d) !! h) as [t|]; simpl; [|done].
    by destruct (callback t).
  - by destruct (controls_rendered (state d)).
  - by destruct (controls_rendered (state d)).
  - by destruct (controls_rendered (state d) && _).
  - by destruct (error r).
Qed.

Lemma handler_handles (e : Event) (d : Display) :
  pollCleanup (handler e d).1 = pollCleanup d ∧
  cycleCleanup (handler e d).1 = cycleCleanup d ∧
  next_handle (browser (handler e d).1) = next_handle (browser d).
Proof.
  destruct e as [h| | |idx|r|r]; simpl; try done.
  - destruct (timers (browser d) !! h) as [t|]; simpl; [|done].
    by destruct (repeating t).
  - by destruct (error r).
Qed.

(** Only the cycle effect runs again. *)
Lemma commit_recycle (new : State) (d : Display) :
  refreshInterval new = refreshInterval (state d) →
  cycle_deps_changed (state d) new = true →
  commit new d =
    let b := cycle_cleanup (cycleCleanup d) (browser d) in
    {| browser := (cycle_effect new b).1; state := new;
       pollCleanup := pollCleanup d;
       cycleCleanup := (cycle_effect new b).2 |}.
Proof.
  intros Hr Hc. unfold commit, cleanup_phase, effect_phase.
  rewrite poll_deps_same by done. rewrite Hc. simpl.
  by destruct (cycle_effect new _).
Qed.

(** The cycle effect does not run. *)
Lemma commit_cycle_kept (new : State) (d : Display) :
  cycle_deps_changed (state d) new = false →
  cycleCleanup (commit new d) = cycleCleanup d ∧
  timers (browser (commit new d)) =
    if poll_deps_changed (state d) new
    then <[next_handle (browser d) := poll_timer new]>
           (clear_handle (pollCleanup d) (timers (browser d)))
    else timers (browser d).
Proof.
  intros Hc. unfold commit, cleanup_phase, effect_phase, poll_effect.
  rewrite Hc.
  change (poll_cleanup (pollCleanup d) (browser d))
    with (cycle_cleanup (pollCleanup d) (browser d)).
  destruct (poll_deps_changed (state d) new); simpl; [|done].
  by destruct (timers_cleanup (pollCleanup d) (browser d)) as (-> & -> & _).
Qed.

Lemma advance_timers_ext (b b' : Browser) :
  (∀ h t, is_advance t = true →
     timers b !! h = Some t ↔ timers b' !! h = Some t) →
  advance_timers b = advance_timers b'.
Proof.
  intros Hext. unfold advance_timers. apply map_eq. intros h.
  apply option_eq. intros t. rewrite !advance_filter_Some.
  split; intros [Hl Ha]; (split; [by apply (Hext h t Ha)|done]).
Qed.

(** X6. The dwell clock restarts exactly when [currentIndex] changes or
    the list is replaced.  Then the handle the cycle cleanup held is
    dead, and with two announcements or more one advance timer is armed
    under a handle never used before, for the whole duration of the now
    current item; with fewer none is.  A successful poll is such an
    event even when it returns the very list already shown.  Under every
    other event (a failed poll, a settings response, a click on the dot
    of the current item, a timer other than the advance timer) the
    cleanup keeps its handle and the advance timers are the same. *)
Theorem dwell_clock (d : Display) (e : Event) :
  reachable d →
  let d' := dispatch e d in
  (currentIndex (state d') ≠ currentIndex (state d) ∨ replaces_list e = true →
     (∀ h, cycleCleanup d = Some h → timers (browser d') !! h = None) ∧
     ((2 ≤ length (announcements (state d')))%nat →
        cycleCleanup d' = Some (next_handle (browser d)) ∧
        advance_timers (browser d') =
          {[ next_handle (browser d) := cycle_timer (state d') ]}) ∧
     ((length (announcements (state d')) ≤ 1)%nat →
        cycleCleanup d' = None ∧ advance_timers (browser d') = ∅)) ∧
  (currentIndex (state d') = currentIndex (state d) → replaces_list e = false →
     cycleCleanup d' = cycleCleanup d ∧
     advance_timers (browser d') = advance_timers (browser d)).
Proof.
  intros Hr d'.
  pose proof (reachable_inv d Hr) as HI.
  pose proof (reachable_inv d' (reachable_dispatch e d Hr)) as HI'.
  destruct (handler_ok e d HI) as (Hs & Hok1 & _ & _).
  destruct (handler_handles e d) as (Hp1 & Hc1 & Hn1).
  assert (Hst : state d' = (handler e d).2) by apply dispatch_state.
  split.
  - intros Hchg.
    assert (Hset : is_settings_response e = false).
    { destruct e; try done. exfalso. destruct Hchg as [Hne|]; [|done].
      apply Hne. rewrite Hst. simpl. by destruct (data r). }
    assert (Hdeps : cycle_deps_changed (state d) (handler e d).2 = true).
    { unfold cycle_deps_changed. apply orb_true_intro.
      destruct Hchg as [Hne|Hrep].
      - left. apply bool_decide_eq_true. rewrite <- Hst. congruence.
      - right. apply bool_decide_eq_true.
        destruct e as [| | | |r|]; try discriminate. simpl in *.
        destruct (error r); [discriminate|]. simpl. lia. }
    assert (Hd' : d' =
      let b := cycle_cleanup (cycleCleanup d) (browser (handler e d).1) in
      {| browser := (cycle_effect (handler e d).2 b).1;
         state := (handler e d).2;
         pollCleanup := pollCleanup d;
         cycleCleanup := (cycle_effect (handler e d).2 b).2 |}).
    { unfold d', dispatch. destruct (handler e d) as [d1 new] eqn:Hh.
      simpl in *. rewrite commit_recycle; rewrite ?Hs, ?Hp1, ?Hc1; [done| |done].
      pose proof (handler_refresh e d Hset) as H. by rewrite Hh in H. }
    assert (Hdead : ∀ h, cycleCleanup d = Some h → timers (browser d') !! h = None).
    { intros h Hc. rewrite Hd'. simpl. unfold cycle_effect.
      destruct (ok_handle _ _ _ _ _ _ _ _ Hok1 h) as [Hlt _]; [by rewrite Hc1|].
      rewrite Hc. destruct (length _ <=? 1)%nat; simpl.
      - by rewrite lookup_delete_eq.
      - rewrite lookup_insert_ne by lia. by rewrite lookup_delete_eq. }
    split; [done|]. split.
    + intros HN.
      destruct (advance_timers_one d' HI' HN) as (h' & Hc' & _ & Hone).
      assert (Hh' : cycleCleanup d' = Some (next_handle (browser d))).
      { rewrite Hd'. simpl. unfold cycle_effect. rewrite Hst in HN.
        destruct (length _ <=? 1)%nat eqn:El; [apply Nat.leb_le in El; lia|].
        simpl. destruct (cycleCleanup d); simpl; by rewrite Hn1. }
      split; [done|]. rewrite Hone. congruence.
    + intros HN. split.
      * rewrite Hd'. simpl. unfold cycle_effect. rewrite Hst in HN.
        destruct (length _ <=? 1)%nat eqn:El; [done|].
        apply Nat.leb_gt in El. lia.
      * destruct HI' as [Hok' _]. by apply (advance_timers_none _ _ Hok').
  - intros Hsame Hrep.
    assert (Hdeps : cycle_deps_changed (state d) (handler e d).2 = false).
    { apply cycle_deps_same; [by rewrite <- Hst|by apply handler_ref]. }
    assert (Hnew : timers (browser d') =
      if poll_deps_changed (state d) (handler e d).2
      then <[next_handle (browser d) := poll_timer (handler e d).2]>
             (clear_handle (pollCleanup d) (timers (browser (handler e d).1)))
      else timers (browser (handler e d).1)).
    { unfold d', dispatch. destruct (handler e d) as [d1 new]. simpl in *.
      destruct (commit_cycle_kept new d1) as [_ ->]; [by rewrite Hs|].
      by rewrite Hs, Hp1, Hn1. }
    split.
    { unfold d', dispatch. destruct (handler e d) as [d1 new]. simpl in *.
      destruct (commit_cycle_kept new d1) as [-> _]; [by rewrite Hs|done]. }
    apply advance_timers_ext. intros h t Ha. rewrite Hnew.
    assert (H1 : timers (browser (handler e d).1) !! h = Some t ↔
                 timers (browser d) !! h = Some t).
    { assert (Hnot : run_callback (callback t) (state d) = state d →
                     timers (browser d) !! h = Some t → False).
      { intros Hrun Hl. destruct HI as [Hok Hidx].
        destruct (ok_advance _ _ _ _ _ _ _ _ Hok _ _ Hl Ha) as (_ & -> & HN).
        simpl in Hrun. apply (f_equal currentIndex) in Hrun. simpl in Hrun.
        apply (next_moves (currentIndex (state d))
                 (Z.of_nat (length (announcements (state d))))); [done|lia|done]. }
      destruct e as [k| | | |r|r]; simpl; try done.
      - destruct (timers (browser d) !! k) as [u|] eqn:Hk; simpl; [|done].
        destruct (repeating u) eqn:Hu; simpl; [done|].
        rewrite lookup_delete_Some. split; [tauto|]. intros Hl. split; [|done].
        intros <-. rewrite Hk in Hl. simplify_eq. apply Hnot; [|done].
        assert (Hi : currentIndex (run_callback (callback t) (state d)) =
                     currentIndex (state d)).
        { rewrite <- Hsame, Hst. simpl. by rewrite Hk. }
        destruct (callback t); try done. simpl in Hi.
        by apply setCurrentIndex_id.
      - by destruct (error r). }
    rewrite <- H1.
    destruct (poll_deps_changed (state d) (handler e d).2); [|done].
    destruct (ok_poll _ _ _ _ _ _ _ _ Hok1) as (p & Hp & Hpt).
    rewrite Hp1 in Hp. rewrite Hp. simpl.
    rewrite lookup_insert_Some, lookup_delete_Some. split.
    + intros [[_ <-]|[_ [_ Hl]]]; [discriminate|done].
    + intros Hl. right. split.
      * apply (ok_fresh _ _ _ _ _ _ _ _ Hok1) in Hl. lia.
      * split; [|done]. intros <-. rewrite Hpt in Hl. by simplify_eq.
Qed.

Lemma dwell_clock_witness :
  reachable showing_abc ∧
  advance_timers
    (browser (dispatch (ListResponse (list_ok (Some [itemA; itemB; itemC])))
                showing_abc)) =
    {[ next_handle (browser showing_abc) := cycle_timer (state showing_abc) ]} ∧
  advance_timers (browser (dispatch (ClickDot 0) showing_abc)) =
    advance_timers (browser showing_abc).
Proof.
  assert (Hr : reachable showing_abc) by (eexists; reflexivity).
  split; [exact Hr|]. split.
  - destruct (dwell_clock showing_abc
                (ListResponse (list_ok (Some [itemA; itemB; itemC]))) Hr)
      as [Hrestart _].
    destruct Hrestart as (_ & Hmany & _); [by right|].
    destruct Hmany as [_ Hone]; [vm_compute; lia|]. exact Hone.
  - destruct (dwell_clock showing_abc (ClickDot 0) Hr) as [_ Hkeep].
    destruct Hkeep as [_ Hsame]; [reflexivity|reflexivity|]. exact Hsame.
Defined.

(** ** What is on screen *)

Lemma loading_dispatch (e : Event) (d : Display) :
  loading (state (dispatch e d)) =
    loading (state d) && negb (is_settings_response e).
Proof.
  rewrite dispatch_state. destruct e as [h| | |idx|r|r]; simpl.
  - destruct (timers (browser d) !! h) as [t|]; simpl; [|by rewrite andb_true_r].
    destruct (callback t); simpl; by rewrite andb_true_r.
  - destruct (controls_rendered (state d)); simpl; by rewrite andb_true_r.
  - destruct (controls_rendered (state d)); simpl; by rewrite andb_true_r.
  - destruct (controls_rendered (state d) && _); simpl; by rewrite andb_true_r.
  - destruct (error r); simpl; by rewrite andb_true_r.
  - by rewrite andb_false_r.
Qed.

Lemma loading_run (evs : list Event) (d : Display) :
  loading (state (run evs d)) = true ↔
  loading (state d) = true ∧ Forall (λ e, is_settings_response e = false) evs.
Proof.
  revert d. induction evs as [|e evs IH]; intros d; simpl.
  - split; [by auto|by intros [? _]].
  - rewrite IH, loading_dispatch, Forall_cons, andb_true_iff, negb_true_iff.
    tauto.
Qed.

(** X7. The spinner is on screen exactly until the first settings query
    of a fetch resolves, with or without a row: no other event takes it
    away, not even the arrival of the announcements, and none brings it
    back. *)
Theorem spinner_until_settings (evs : list Event) :
  render (state (run evs mount)) = Spinner ↔
  Forall (λ e, is_settings_response e = false) evs.
Proof.
  pose proof (loading_run evs mount) as Hl. unfold render.
  destruct (loading (state (run evs mount))).
  - split; [intros _; by apply Hl|done].
  - split.
    + by destruct (length _ =? 0)%nat.
    + intros Hall. destruct Hl as [_ Hl]. by specialize (Hl (conj eq_refl Hall)).
Qed.

Lemma spinner_until_settings_witness :
  render (state (run [ListResponse (list_ok (Some [itemA; itemB]));
                      TimerFired 2; ClickNext] mount)) = Spinner.
Proof.
  apply (proj2 (spinner_until_settings _)). repeat constructor.
Defined.

Lemma filter_fmap_length {A B : Type} (f : A → B) (P : B → Prop)
    `{!∀ y, Decision (P y)} (l : list A) :
  length (filter P (f <$> l)) = length (filter (λ x, P (f x)) l).
Proof.
  induction l as [|x l IH]; [done|]. rewrite fmap_cons.
  destruct (decide (P (f x))) as [Hp|Hp].
  - rewrite !filter_cons_True by done. simpl. by rewrite IH.
  - rewrite !filter_cons_False by done. done.
Qed.

Lemma count_index (c : Z) (n : nat) :
  length (filter (λ j : nat, (Z.of_nat j =? c) = true) (seq 0 n)) =
    if decide (0 ≤ c < Z.of_nat n) then 1%nat else 0%nat.
Proof.
  induction n as [|n IH]; [by rewrite decide_False by lia|].
  rewrite seq_S, filter_app, length_app, IH. simpl.
  destruct (decide (Z.of_nat n = c)) as [Heq|Hne].
  - rewrite filter_cons_True by (by apply Z.eqb_eq). simpl.
    rewrite decide_False by lia. rewrite decide_True by lia. done.
  - rewrite filter_cons_False by (rewrite Z.eqb_eq; done). simpl.
    destruct (decide (0 ≤ c < Z.of_nat n)).
    + rewrite decide_True by lia. done.
    + rewrite decide_False by lia. done.
Qed.

Lemma slides_active (s : State) :
  isActive <$> slides s =
    (λ j : nat, Z.of_nat j =? currentIndex s) <$> seq 0 (length (announcements s)).
Proof.
  unfold slides. rewrite fmap_imap.
  rewrite <- (imap_seq_0 (announcements s) (λ j, Z.of_nat j =? currentIndex s)).
  by apply imap_ext.
Qed.

Lemma dots_active (s : State) : dots s = isActive <$> slides s.
Proof.
  rewrite slides_active. unfold dots. apply imap_seq_0.
Qed.

(** X8. Of the slides of a render exactly one is the active one when
    [currentIndex] is in range, and none when it is out of range: then
    every item is rendered in its hidden class and no dot is
    highlighted, so the stage is blank although the list is not empty.
    The active slide always has its media element. *)
Theorem one_active_slide (s : State) :
  length (slides s) = length (announcements s) ∧
  length (filter (λ sl, isActive sl = true) (slides s)) =
    (if decide (index_in_range s) then 1%nat else 0%nat) ∧
  length (filter (λ highlighted, highlighted = true) (dots s)) =
    (if decide (index_in_range s) then 1%nat else 0%nat) ∧
  (∀ sl, sl ∈ slides s → isActive sl = true → media sl ≠ NoMedia) ∧
  (¬ index_in_range s → ∀ sl, sl ∈ slides s → isActive sl = false).
Proof.
  assert (Hcount : length (filter (λ b : bool, b = true) (isActive <$> slides s)) =
                   if decide (index_in_range s) then 1%nat else 0%nat).
  { rewrite slides_active, filter_fmap_length. apply count_index. }
  split; [apply length_imap|]. split.
  { by rewrite <- Hcount, filter_fmap_length. }
  split; [by rewrite dots_active|]. split.
  - intros sl Hin Hact. unfold slides in Hin.
    apply elem_of_lookup_imap in Hin as (i & item & -> & _). simpl in *.
    unfold AnnouncementMedia, isItemLoaded.
    destruct (length (announcements s) <=? 1)%nat; simpl.
    + by destruct (isVideo (image_url item)).
    + rewrite Hact. simpl. by destruct (isVideo (image_url item)).
  - intros Hout sl Hin. unfold slides in Hin.
    apply elem_of_lookup_imap in Hin as (i & item & -> & Hi). simpl.
    apply Z.eqb_neq. intros Heq. apply Hout.
    apply lookup_lt_Some in Hi. unfold index_in_range, len. lia.
Qed.

Lemma one_active_slide_witness :
  ¬ index_in_range (state (shrunk_to [itemA])) ∧
  Forall (λ sl, isActive sl = false) (slides (state (shrunk_to [itemA]))).
Proof.
  assert (Hout : ¬ index_in_range (state (shrunk_to [itemA])))
    by (vm_compute; intros [_ Hlt]; discriminate Hlt).
  split; [exact Hout|]. apply Forall_forall.
  exact (proj2 (proj2 (proj2 (proj2
           (one_active_slide (state (shrunk_to [itemA])))))) Hout).
Defined.

(** ** Media kind *)

Lemma chars_of_chars (l : list ascii) : chars (of_chars l) = l.
Proof. apply Stdlib.Strings.String.list_ascii_of_string_of_list_ascii. Qed.

Lemma of_chars_chars (s : string) : of_chars (chars s) = s.
Proof. apply Stdlib.Strings.String.string_of_list_ascii_of_string. Qed.

Lemma lower_ascii_dot (c : ascii) : lower_ascii c = "."%char → c = "."%char.
Proof.
  unfold lower_ascii.
  destruct ((65 <=? nat_of_ascii c) && (nat_of_ascii c <=? 90))%nat eqn:Hup;
    [|done].
  apply andb_true_iff in Hup as [Hlo Hhi].
  apply Nat.leb_le in Hlo, Hhi. intros Heq.
  apply (f_equal nat_of_ascii) in Heq.
  rewrite nat_ascii_embedding in Heq by lia.
  change (nat_of_ascii ".") with 46%nat in Heq. lia.
Qed.

Lemma lower_ascii_idemp (c : ascii) : lower_ascii (lower_ascii c) = lower_ascii c.
Proof.
  unfold lower_ascii.
  destruct ((65 <=? nat_of_ascii c) && (nat_of_ascii c <=? 90))%nat eqn:Hup;
    cbv zeta; [|by rewrite Hup].
  apply andb_true_iff in Hup as [Hlo Hhi]. apply Nat.leb_le in Hlo, Hhi.
  rewrite nat_ascii_embedding by lia.
  replace (nat_of_ascii c + 32 <=? 90)%nat with false
    by (symmetry; apply Nat.leb_gt; lia).
  by rewrite andb_false_r.
Qed.

Lemma lower_idemp (l : list ascii) : lower (lower l) = lower l.
Proof.
  unfold lower. rewrite <- list_fmap_compose. apply list_fmap_ext.
  intros ? c _. apply lower_ascii_idemp.
Qed.

Lemma ends_with_true (ending l : list ascii) :
  ends_with ending l = true ↔ ∃ stem, l = stem ++ ending.
Proof. unfold ends_with. by rewrite bool_decide_eq_true. Qed.

Lemma isVideo_true (u : string) :
  isVideo u = true ↔
  ∃ stem ext, chars u = stem ++ "."%char :: ext ∧
              of_chars (lower ext) ∈ video_extensions.
Proof.
  unfold isVideo. rewrite existsb_exists. split.
  - intros (e & He & Hend). apply list_elem_of_In in He.
    apply ends_with_true in Hend as (stem' & Hl).
    unfold lower in Hl. apply fmap_app_inv in Hl as (stem & tail & _ & Ht & Hu).
    change (chars ("." +:+ e)) with ("."%char :: chars e) in Ht.
    destruct tail as [|c ext]; [done|]. rewrite fmap_cons in Ht.
    injection Ht as Hc Hext. apply eq_sym, lower_ascii_dot in Hc. subst c.
    exists stem, ext. split; [done|].
    fold (lower ext) in Hext. by rewrite <- Hext, of_chars_chars.
  - intros (stem & ext & Hu & He).
    exists (of_chars (lower ext)). split; [by apply list_elem_of_In|].
    apply ends_with_true. exists (lower stem).
    change (chars ("." +:+ of_chars (lower ext)))
      with ("."%char :: chars (of_chars (lower ext))).
    rewrite chars_of_chars, Hu. unfold lower. by rewrite fmap_app.
Qed.

(** X9. [isVideo] holds of a URL exactly when the URL is some text, a
    dot, and an extension that in lower case is one of mp4, webm, ogg and
    mov; so the case of the letters does not matter, and a URL without a
    dot or with anything after the extension (a query string) is
    rendered as an image. *)
Theorem isVideo_iff (url : string) :
  (isVideo url = true ↔
     ∃ stem ext, chars url = stem ++ "."%char :: ext ∧
                 of_chars (lower ext) ∈ video_extensions) ∧
  isVideo (of_chars (lower (chars url))) = isVideo url ∧
  ("."%char ∉ chars url → isVideo url = false).
Proof.
  split; [apply isVideo_true|]. split.
  - unfold isVideo. by rewrite chars_of_chars, lower_idemp.
  - intros Hdot. destruct (isVideo url) eqn:Hv; [|done].
    apply isVideo_true in Hv as (stem & ext & Hu & _). destruct Hdot.
    rewrite Hu. apply elem_of_app. right. apply elem_of_cons. by left.
Qed.

Lemma isVideo_iff_witness :
  isVideo "https://cdn.example/media/0.4211.MP4" = true ∧
  isVideo "https://cdn.example/media/clip.mp4?token=1" = false.
Proof.
  split.
  - apply (proj1 (isVideo_iff _)).
    exists (chars "https://cdn.example/media/0.4211"), (chars "MP4").
    split; [reflexivity|]. vm_compute. repeat constructor.
  - by vm_compute.
Defined.

(** ** Playing and pausing the videos *)

Lemma page_run_display (evs : list Event) (p : Page) :
  display (page_run evs p) = run evs (display p).
Proof.
  revert p. induction evs as [|e evs IH]; intros p; simpl; [done|].
  by rewrite IH.
Qed.

Lemma page_run_snoc (evs : list Event) (e : Event) (p : Page) :
  page_run (evs ++ [e]) p = page_dispatch e (page_run evs p).
Proof. unfold page_run. by rewrite foldl_app. Qed.

Lemma media_update_playing (prev : option MediaInstance) (sl : Slide) :
  (∀ inst, prev = Some inst → videoRef inst = Some true →
           isActive_dep inst = true) →
  videoRef (media_update prev sl) = Some true → isActive sl = true.
Proof.
  intros Hprev. unfold media_update, media_effect, media_element.
  destruct prev as [inst|]; simpl.
  - specialize (Hprev inst eq_refl).
    destruct (media sl), (isActive_dep inst) eqn:Hd, (isActive sl),
      (videoRef inst) as [[|]|]; simpl; try done; intros _; by apply Hprev.
  - by destruct (media sl), (isActive sl).
Qed.

Lemma media_update_video (prev : option MediaInstance) (sl : Slide) :
  is_Some (videoRef (media_update prev sl)) → ∃ src, media sl = Video src.
Proof.
  unfold media_update, media_effect, media_element.
  destruct (media sl) as [| |src]; [| |by eauto];
    destruct prev as [inst|]; simpl;
    repeat match goal with |- context [if ?c then _ else _] => destruct c end;
    by intros [? ?].
Qed.

Lemma media_commit_lookup (old : gmap string MediaInstance) (s : State)
    (k : string) (inst : MediaInstance) :
  media_commit old s !! k = Some inst →
  ∃ i item, announcements s !! i = Some item ∧ id item = k ∧
            inst = media_update (old !! k) (slide_of s i item).
Proof.
  unfold media_commit, render.
  destruct (loading s); [by rewrite lookup_empty|].
  destruct (length (announcements s) =? 0)%nat; [by rewrite lookup_empty|].
  intros Hl. apply elem_of_list_to_map_2 in Hl.
  apply list_elem_of_fmap in Hl as (sl & Heq & Hin). injection Heq as -> ->.
  unfold slides in Hin. apply elem_of_lookup_imap in Hin as (i & item & -> & Hi).
  by exists i, item.
Qed.

Lemma media_commit_safe (old : gmap string MediaInstance) (s : State) :
  playing_are_active old → playing_are_active (media_commit old s).
Proof.
  intros Hold k inst Hl Hplay.
  apply media_commit_lookup in Hl as (i & item & _ & _ & ->).
  apply (media_update_playing (old !! k) (slide_of s i item)); [|done].
  intros inst Hk Hv. exact (Hold k inst Hk Hv).
Qed.

Lemma page_run_safe (evs : list Event) :
  playing_are_active (medias (page_run evs page_mount)).
Proof.
  induction evs as [|e evs IH] using rev_ind.
  - simpl. apply media_commit_safe. intros k inst Hl. by rewrite lookup_empty in Hl.
  - rewrite page_run_snoc. simpl. by apply media_commit_safe.
Qed.

(** X10. Only the current item plays: after every sequence of events, a
    video element on which [play()] was the last call is the element of
    the announcement at [currentIndex], and that announcement is a
    video.  So at most one video plays, and none while the index is out
    of range. *)
Theorem playing_only_current (evs : list Event) :
  let p := page_run evs page_mount in
  let s := state (run evs mount) in
  ∀ k inst, medias p !! k = Some inst → videoRef inst = Some true →
    ∃ i item, announcements s !! i = Some item ∧ id item = k ∧
              Z.of_nat i = currentIndex s ∧
              isVideo (image_url item) = true ∧
              index_in_range s.
Proof.
  intros p s k inst Hl Hplay.
  assert (Hcommit : ∃ old, playing_are_active old ∧
                           medias p = media_commit old s).
  { unfold p, s. destruct evs as [|e evs _] using rev_ind.
    - exists ∅. split; [|done]. intros ? ? H. by rewrite lookup_empty in H.
    - exists (medias (page_run evs page_mount)). split; [apply page_run_safe|].
      rewrite page_run_snoc. simpl. rewrite page_run_display. simpl.
      unfold run. by rewrite foldl_app. }
  destruct Hcommit as (old & Hold & Hm). rewrite Hm in Hl.
  apply media_commit_lookup in Hl as (i & item & Hi & Hk & ->).
  assert (Hact : isActive (slide_of s i item) = true).
  { apply (media_update_playing (old !! k) (slide_of s i item)); [|done].
    intros inst Ho Hv. exact (Hold k inst Ho Hv). }
  destruct (media_update_video (old !! k) (slide_of s i item)) as [src Hsrc];
    [by rewrite Hplay|].
  simpl in Hact, Hsrc. apply Z.eqb_eq in Hact.
  exists i, item. split; [done|]. split; [done|]. split; [done|]. split.
  - unfold AnnouncementMedia in Hsrc.
    destruct (negb _); [done|]. by destruct (isVideo (image_url item)).
  - apply lookup_lt_Some in Hi. unfold index_in_range, len. lia.
Qed.

Lemma playing_only_current_witness :
  let evs := [ListResponse (list_ok (Some [itemV; itemB]));
              SettingsResponse (settings_ok 5)] in
  medias (page_run evs page_mount) !! "V" =
    Some {| isActive_dep := true; videoRef := Some true |} ∧
  ∃ i item, announcements (state (run evs mount)) !! i = Some item ∧
            id item = "V" ∧ Z.of_nat i = currentIndex (state (run evs mount)).
Proof.
  intros evs.
  assert (Hl : medias (page_run evs page_mount) !! "V" =
               Some {| isActive_dep := true; videoRef := Some true |})
    by (by vm_compute).
  split; [exact Hl|].
  destruct (playing_only_current evs _ _ Hl eq_refl)
    as (i & item & Hi & Hk & Hc & _).
  exists i, item. split; [exact Hi|]. split; [exact Hk|exact Hc].
Defined.

Lemma render_stage (s : State) :
  loading s = false → (1 ≤ length (announcements s))%nat →
  render s = Stage (slides s) (dots s).
Proof.
  intros Hl HN. unfold render. rewrite Hl.
  destruct (length (announcements s) =? 0)%nat eqn:E; [|done].
  apply Nat.eqb_eq in E. lia.
Qed.

Lemma synced_lookup (s : State) (k : string) (inst : MediaInstance) :
  synced s !! k = Some inst →
  ∃ i item, announcements s !! i = Some item ∧ id item = k ∧
            inst = synced_instance (slide_of s i item).
Proof.
  unfold synced, render.
  destruct (loading s); [by rewrite lookup_empty|].
  destruct (length (announcements s) =? 0)%nat; [by rewrite lookup_empty|].
  intros Hl. apply elem_of_list_to_map_2 in Hl.
  apply list_elem_of_fmap in Hl as (sl & Heq & Hin). injection Heq as -> ->.
  unfold slides in Hin. apply elem_of_lookup_imap in Hin as (i & item & -> & Hi).
  by exists i, item.
Qed.

Lemma active_is_loaded (s : State) (i : Z) :
  (i =? currentIndex s) = true → isItemLoaded s i = true.
Proof.
  intros Ha. unfold isItemLoaded.
  destruct (length (announcements s) <=? 1)%nat; [done|]. by rewrite Ha.
Qed.

(** One instance from a render in step to the next render. *)
Lemma media_update_synced (s s' : State) (i : nat) (item : Announcement) :
  (∀ j item0, announcements s !! j = Some item0 → id item0 = id item →
              image_url item0 = image_url item) →
  media_update (synced s !! id item) (slide_of s' i item) =
    synced_instance (slide_of s' i item).
Proof.
  intros Hurl.
  pose proof (active_is_loaded s' (Z.of_nat i)) as Ha'.
  destruct (synced s !! id item) as [inst|] eqn:Hprev.
  - apply synced_lookup in Hprev as (j & item0 & Hj & Hid & ->).
    pose proof (active_is_loaded s (Z.of_nat j)) as Ha.
    specialize (Hurl j item0 Hj Hid).
    unfold media_update, synced_instance, media_effect, media_element,
      slide_of, AnnouncementMedia. simpl. rewrite Hurl.
    destruct (Z.of_nat j =? currentIndex s), (isItemLoaded s (Z.of_nat j)),
      (Z.of_nat i =? currentIndex s'), (isItemLoaded s' (Z.of_nat i)),
      (isVideo (image_url item)); simpl; try done;
      try (by specialize (Ha eq_refl)); by specialize (Ha' eq_refl).
  - unfold media_update, synced_instance, media_effect, media_element,
      slide_of, AnnouncementMedia. simpl.
    destruct (Z.of_nat i =? currentIndex s'), (isItemLoaded s' (Z.of_nat i)),
      (isVideo (image_url item)); simpl; done.
Qed.

Lemma media_commit_synced (url_of : string → string) (s s' : State) :
  (∀ a, a ∈ announcements s → image_url a = url_of (id a)) →
  (∀ a, a ∈ announcements s' → image_url a = url_of (id a)) →
  media_commit (synced s) s' = synced s'.
Proof.
  intros Hs Hs'. unfold media_commit. unfold synced at 2.
  destruct (render s') as [| |items inds] eqn:Hr; [done|done|].
  assert (Hitems : items = slides s').
  { unfold render in Hr. destruct (loading s'); [done|].
    destruct (length (announcements s') =? 0)%nat; [done|]. by injection Hr. }
  subst items. f_equal. apply list_fmap_ext. intros i sl Hi.
  unfold slides in Hi. rewrite list_lookup_imap in Hi.
  destruct (announcements s' !! i) as [item|] eqn:Hitem; [|done].
  simpl in Hi. injection Hi as <-. f_equal.
  change (slide_key (slide_of s' i item)) with (id item).
  apply media_update_synced. intros j item0 Hj Hid.
  rewrite (Hs item0), (Hs' item), Hid; [done| |].
  - by apply list_elem_of_lookup_2 in Hitem.
  - by apply list_elem_of_lookup_2 in Hj.
Qed.

Lemma urls_run (url_of : string → string) (evs : list Event) :
  Forall (urls_fixed url_of) evs →
  ∀ a, a ∈ announcements (state (run evs mount)) → image_url a = url_of (id a).
Proof.
  induction evs as [|e evs IH] using rev_ind; intros Hall a Ha.
  - by apply elem_of_nil in Ha.
  - apply Forall_app in Hall as [Hevs He]. rewrite Forall_singleton in He.
    unfold run in Ha. rewrite foldl_app in Ha. simpl in Ha.
    fold (run evs mount) in Ha. rewrite dispatch_state in Ha.
    destruct (replaces_list e) eqn:Hrep.
    + destruct e as [| | | |r|]; try discriminate. simpl in *.
      destruct (error r); [discriminate|]. simpl in Ha. by apply He.
    + rewrite handler_list_length in Ha by done. by apply IH.
Qed.

(** X11. Provided the media URL of an announcement never changes under
    its id, after every sequence of events the slides have exactly the
    video elements of the render, and on each of them the last call was
    [play()] if its slide is the current one and [pause()], or none,
    otherwise: the current video plays and every preloaded neighbour
    stands paused. *)
Theorem videos_follow_index (url_of : string → string) (evs : list Event) :
  Forall (urls_fixed url_of) evs →
  let p := page_run evs page_mount in
  let s := state (run evs mount) in
  medias p = synced s ∧
  (NoDup (id <$> announcements s) → render s ≠ Spinner →
   ∀ i item, announcements s !! i = Some item →
     medias p !! id item =
       Some {| isActive_dep := Z.of_nat i =? currentIndex s;
               videoRef :=
                 if isItemLoaded s (Z.of_nat i) && isVideo (image_url item)
                 then Some (Z.of_nat i =? currentIndex s) else None |}).
Proof.
  intros Hall p s.
  assert (Hsync : medias p = synced s).
  { unfold p, s. clear p s.
    induction evs as [|e evs IH] using rev_ind; [done|].
    apply Forall_app in Hall as Hsplit. destruct Hsplit as [Hevs _].
    rewrite page_run_snoc. simpl. rewrite page_run_display, (IH Hevs). simpl.
    replace (dispatch e (run evs mount)) with (run (evs ++ [e]) mount)
      by (unfold run; by rewrite foldl_app).
    apply (media_commit_synced url_of); by apply urls_run. }
  split; [done|]. intros Hnd Hspin i item Hi. rewrite Hsync.
  assert (Hst : render s = Stage (slides s) (dots s)).
  { unfold render in *. destruct (loading s); [done|].
    destruct (length (announcements s) =? 0)%nat eqn:E; [|done].
    apply Nat.eqb_eq in E. apply lookup_lt_Some in Hi. lia. }
  unfold synced. rewrite Hst.
  assert (Hkeys : ((λ sl, (slide_key sl, synced_instance sl)) <$> slides s).*1
                  = id <$> announcements s).
  { rewrite <- list_fmap_compose. unfold slides. rewrite fmap_imap.
    rewrite <- (imap_const id). by apply imap_ext. }
  apply elem_of_list_to_map_1; [by rewrite Hkeys|].
  apply list_elem_of_fmap. exists (slide_of s i item). split.
  - unfold synced_instance, slide_of, AnnouncementMedia. simpl. f_equal. f_equal.
    destruct (isItemLoaded s (Z.of_nat i)), (isVideo (image_url item)); done.
  - unfold slides. by apply elem_of_lookup_imap_2.
Qed.

Lemma videos_follow_index_witness :
  let evs := [ListResponse (list_ok (Some [itemV; itemB]));
              SettingsResponse (settings_ok 5); ClickNext] in
  medias (page_run evs page_mount) !! "V" =
    Some {| isActive_dep := false; videoRef := Some false |}.
Proof.
  intros evs.
  destruct (videos_follow_index
              (λ k, if String.eqb k "V" then image_url itemV else k) evs)
    as [_ Hat].
  - repeat constructor; simpl; intros a Ha;
      repeat (apply elem_of_cons in Ha as [->|Ha]; [reflexivity|]);
      by apply elem_of_nil in Ha.
  - exact (Hat ltac:(apply (bool_decide_unpack _); vm_compute; exact I)
                 ltac:(vm_compute; discriminate) 0%nat itemV eq_refl).
Defined.

(** ** The name of an uploaded file *)

Lemma chars_app (a b : string) : chars (a +:+ b) = chars a ++ chars b.
Proof.
  induction a as [|c a IH]; [done|].
  change (chars (String c a +:+ b)) with (c :: chars (a +:+ b)).
  by rewrite IH.
Qed.

Lemma split_on_last (sep : ascii) (l : list ascii) :
  ∃ piece, last (split_on sep l) = Some piece ∧ (sep ∉ piece) ∧
    ((split_on sep l = [piece] ∧ l = piece) ∨
     (∃ stem, (2 ≤ length (split_on sep l))%nat ∧ l = stem ++ sep :: piece)).
Proof.
  induction l as [|c l (piece & Hlast & Hsep & IH)].
  - exists []. split; [done|]. split; [apply not_elem_of_nil|]. by left.
  - simpl. destruct (decide (c = sep)) as [->|Hne].
    + exists piece. split.
      { destruct (split_on sep l) as [|w ws]; [done|]. by rewrite last_cons, Hlast. }
      split; [done|]. right. destruct IH as [[Hone ->]|(stem & Hlen & ->)].
      * exists []. rewrite Hone. simpl. split; [lia|done].
      * exists (sep :: stem). simpl. split; [lia|done].
    + destruct IH as [[Hone ->]|(stem & Hlen & ->)].
      * rewrite Hone. exists (c :: piece). split; [done|]. split.
        { rewrite not_elem_of_cons. split; [congruence|done]. }
        by left.
      * destruct (split_on sep (stem ++ sep :: piece)) as [|w [|w' ws]];
          simpl in Hlen; [lia|lia|].
        exists piece. split; [by rewrite last_cons_cons in Hlast |- *|].
        split; [done|]. right. exists (c :: stem). simpl. split; [lia|done].
Qed.

Lemma lower_keeps_dot (l : list ascii) : "."%char ∈ l → "."%char ∈ lower l.
Proof.
  intros Hin. unfold lower. apply list_elem_of_fmap. by exists "."%char.
Qed.

Lemma extension_no_dot (ext : list ascii) :
  of_chars (lower ext) ∈ video_extensions → "."%char ∉ ext.
Proof.
  intros Hin Hdot. apply lower_keeps_dot in Hdot.
  unfold video_extensions in Hin.
  repeat (apply elem_of_cons in Hin as [Heq|Hin];
          [apply (f_equal chars) in Heq; rewrite chars_of_chars in Heq;
           rewrite Heq in Hdot; vm_compute in Hdot;
           repeat (apply elem_of_cons in Hdot as [Hd|Hdot]; [discriminate Hd|]);
           by apply elem_of_nil in Hdot|]).
  by apply elem_of_nil in Hin.
Qed.

(** X12. The extension [confirmUpload] gives the stored file is the text
    after the last dot of the file's name: it has no dot in it; it is the
    whole name when the name has no dot, and empty when the name ends in
    a dot. *)
Theorem fileExt_last_piece (name : string) :
  ("."%char ∉ chars (fileExt name)) ∧
  ("."%char ∉ chars name → fileExt name = name) ∧
  (∀ stem ext, chars name = stem ++ "."%char :: ext → "."%char ∉ ext →
     fileExt name = of_chars ext) ∧
  (∀ stem, chars name = stem ++ ["."%char] → fileExt name = "").
Proof.
  unfold fileExt.
  destruct (split_on_last "."%char (chars name)) as (piece & -> & Hsep & Hcase).
  simpl. rewrite chars_of_chars.
  assert (Hext : ∀ stem ext, chars name = stem ++ "."%char :: ext →
                             "."%char ∉ ext → of_chars piece = of_chars ext).
  { intros stem ext Hn Hdot.
    destruct Hcase as [[_ Hp]|(stem' & _ & Hp)].
    - destruct Hsep. rewrite <- Hp, Hn. apply elem_of_app. right.
      apply elem_of_cons. by left.
    - rewrite Hn in Hp.
      destruct (suffix_not_elem_of_app_cons_inv "."%char "."%char
                  stem ext stem' piece) as (_ & _ & ->); [done|done| |done].
      by rewrite Hp. }
  split; [done|]. split; [|split; [done|]].
  - intros Hdot. destruct Hcase as [[_ <-]|(stem & _ & Hp)].
    + apply of_chars_chars.
    + destruct Hdot. rewrite Hp. apply elem_of_app. right.
      apply elem_of_cons. by left.
  - intros stem Hn. apply (Hext stem []); [done|apply not_elem_of_nil].
Qed.

Lemma fileExt_last_piece_witness :
  fileExt "holiday.final.MOV" = "MOV" ∧ fileExt "README" = "README".
Proof.
  split.
  - refine (proj1 (proj2 (proj2 (fileExt_last_piece "holiday.final.MOV")))
              (chars "holiday.final") (chars "MOV") _ _); [reflexivity|].
    vm_compute. intros H.
    repeat (apply elem_of_cons in H as [Hd|H]; [discriminate Hd|]).
    by apply elem_of_nil in H.
  - apply (proj1 (proj2 (fileExt_last_piece "README"))).
    vm_compute. intros H.
    repeat (apply elem_of_cons in H as [Hd|H]; [discriminate Hd|]).
    by apply elem_of_nil in H.
Defined.

(** X13. What the display makes of an upload: when the public URL of the
    stored file is a base address followed by the file path, the display
    renders it as a video exactly if the extension taken from the file's
    name is, in lower case, one of mp4, webm, ogg and mov.  So a file
    whose name [isVideo] accepts is shown as a video, and so is a file
    named just mp4, without a dot. *)
Theorem uploaded_media_kind (base random name : string) :
  (isVideo (base +:+ filePath random name) = true ↔
     of_chars (lower (chars (fileExt name))) ∈ video_extensions) ∧
  (isVideo name = true → isVideo (base +:+ filePath random name) = true).
Proof.
  assert (Hurl : chars (base +:+ filePath random name) =
                 (chars base ++ chars random) ++ "."%char :: chars (fileExt name)).
  { unfold filePath. rewrite !chars_app. by rewrite <- app_assoc. }
  assert (Hnodot : "."%char ∉ chars (fileExt name)).
  { unfold fileExt.
    destruct (split_on_last "."%char (chars name)) as (piece & -> & Hsep & _).
    simpl. by rewrite chars_of_chars. }
  assert (Hiff : isVideo (base +:+ filePath random name) = true ↔
                 of_chars (lower (chars (fileExt name))) ∈ video_extensions).
  { rewrite isVideo_true. split.
    - intros (stem & ext & Hu & Hext). rewrite Hurl in Hu.
      pose proof (extension_no_dot ext Hext) as Hd.
      destruct (suffix_not_elem_of_app_cons_inv "."%char "."%char
                  stem ext (chars base ++ chars random) (chars (fileExt name)))
        as (_ & _ & ->); [done|done|by rewrite Hu|done].
    - intros Hext. by exists (chars base ++ chars random), (chars (fileExt name)). }
  split; [done|].
  intros Hv. apply Hiff. apply isVideo_true in Hv as (stem & ext & Hn & Hext).
  pose proof (extension_no_dot ext Hext) as Hd.
  unfold fileExt.
  destruct (split_on_last "."%char (chars name)) as (piece & -> & Hsep & Hcase).
  simpl. rewrite chars_of_chars.
  destruct Hcase as [[_ Hp]|(stem' & _ & Hp)].
  - destruct Hsep. rewrite <- Hp, Hn. apply elem_of_app. right.
    apply elem_of_cons. by left.
  - rewrite Hn in Hp.
    destruct (suffix_not_elem_of_app_cons_inv "."%char "."%char
                stem ext stem' piece) as (_ & _ & ->); [done|done| |done].
    by rewrite Hp.
Qed.

Lemma uploaded_media_kind_witness :
  isVideo ("https://cdn.example/media/" +:+ filePath "0.4211" "holiday.MP4")
    = true.
Proof.
  apply (proj2 (uploaded_media_kind "https://cdn.example/media/" "0.4211"
                  "holiday.MP4")).
  reflexivity.
Defined.

(** ** The admin panel *)

Ltac some_cases :=
  unfold is_Some in *; try split; intros;
  repeat match goal with
         | H : ∃ _, _ |- _ => destruct H
         | H : _ ∧ _ |- _ => destruct H
         end;
  simplify_eq; try done; eauto.

Section admin.
Variable getPublicUrl : string → string.

Lemma admin_mount_inv : AdminInv Admin.mount.
Proof. constructor; simpl; some_cases. Qed.

Lemma preview_cleanup_next (c : option nat) (e : Admin.Env) :
  Admin.next_url (Admin.preview_cleanup c e) = Admin.next_url e.
Proof. by destruct c. Qed.

Lemma preview_cleanup_log (c : option nat) (e : Admin.Env) :
  Admin.alerts (Admin.preview_cleanup c e) = Admin.alerts e ∧
  Admin.requests (Admin.preview_cleanup c e) = Admin.requests e.
Proof. by destruct c. Qed.

Lemma modal_rendered_true (s : Admin.State) :
  Admin.modal_rendered s = true ↔
  is_Some (Admin.selectedFile s) ∧ is_Some (Admin.uploadPreviewUrl s).
Proof.
  unfold Admin.modal_rendered. by rewrite andb_true_iff, !bool_decide_eq_true.
Qed.

Lemma admin_commit_same (e : Admin.Env) (j : option Admin.Job)
    (new : Admin.State) (p : Admin.Panel) :
  Admin.uploadPreviewUrl new = Admin.uploadPreviewUrl (Admin.state p) →
  Admin.commit e j new p =
    {| Admin.env := e; Admin.state := new;
       Admin.previewCleanup := Admin.previewCleanup p; Admin.job := j |}.
Proof.
  intros Hu. unfold Admin.commit. rewrite bool_decide_eq_false_2; [done|].
  intros Hne. by apply Hne.
Qed.

Lemma admin_dispatch_inv (ev : Admin.Event) (p : Admin.Panel) :
  AdminInv p → AdminInv (Admin.dispatch getPublicUrl ev p).
Proof.
  intros HI. pose proof HI as [Hcl Hurls Hfresh Hsel Hup Hjob].
  assert (Hidle : Admin.commit (Admin.env p) (Admin.job p) (Admin.state p) p = p).
  { rewrite admin_commit_same by done. by destruct p. }
  assert (Hkeep : ∀ e new,
    Admin.uploadPreviewUrl new = Admin.uploadPreviewUrl (Admin.state p) →
    Admin.selectedFile new = Admin.selectedFile (Admin.state p) →
    Admin.uploading new = Admin.uploading (Admin.state p) →
    Admin.objectURLs e = Admin.objectURLs (Admin.env p) →
    Admin.next_url e = Admin.next_url (Admin.env p) →
    AdminInv (Admin.commit e (Admin.job p) new p)).
  { intros e new Hu Hf Hb Ho Hn. rewrite admin_commit_same by done.
    constructor; simpl; rewrite ?Hu, ?Hf, ?Hb, ?Ho, ?Hn; try done.
    intros Hj. specialize (Hjob Hj). unfold Admin.modal_rendered in *.
    by rewrite Hu, Hf. }
  unfold Admin.dispatch.
  destruct ev as [files|v| |random|uerr|derr|r|row|err|row confirmed|err|row|];
    simpl.
  - (* FileSelect *)
    destruct (Admin.uploading (Admin.state p)) eqn:Hu; [by rewrite Hidle|].
    destruct files as [|file files]; [by rewrite Hidle|].
    simpl. unfold Admin.commit. simpl.
    assert (Hnew : Admin.uploadPreviewUrl (Admin.state p)
                   ≠ Some (Admin.next_url (Admin.env p))).
    { intros Heq. apply Hfresh in Heq. lia. }
    rewrite bool_decide_eq_true_2 by done.
    constructor; simpl.
    + done.
    + rewrite Hcl.
      destruct (Admin.uploadPreviewUrl (Admin.state p)) as [u|] eqn:Hold;
        simpl; rewrite Hurls.
      * assert (u ≠ Admin.next_url (Admin.env p)) by congruence.
        apply set_eq. intros z. set_unfold. split.
        { intros [[-> | ->] Hz]; done. }
        { intros ->. split; [by left|done]. }
      * apply set_eq. intros z. set_unfold. tauto.
    + intros url [= <-]. rewrite preview_cleanup_next. simpl. lia.
    + split; intros _; by eexists.
    + by rewrite <- Hup, Hu.
    + intros Hj. apply Hup in Hj. congruence.
  - (* DurationInput *)
    by apply Hkeep.
  - (* CancelClick *)
    destruct (Admin.modal_rendered (Admin.state p) &&
              negb (Admin.uploading (Admin.state p))) eqn:Hc;
      [|by rewrite Hidle].
    apply andb_true_iff in Hc as [Hm Hu]. apply negb_true_iff in Hu.
    apply modal_rendered_true in Hm as [_ [u Hprev]].
    unfold Admin.commit. simpl. rewrite Hprev.
    rewrite bool_decide_eq_true_2 by done.
    constructor; simpl.
    + done.
    + rewrite Hcl, Hprev. simpl. rewrite Hurls, Hprev.
      apply set_eq. intros z. rewrite elem_of_difference. set_unfold. tauto.
    + done.
    + some_cases.
    + by rewrite <- Hup, Hu.
    + intros Hj. apply Hup in Hj. congruence.
  - (* ConfirmClick *)
    destruct (Admin.modal_rendered (Admin.state p) &&
              negb (Admin.uploading (Admin.state p))) eqn:Hc;
      [|by rewrite Hidle].
    apply andb_true_iff in Hc as [Hm Hu].
    destruct (Admin.selectedFile (Admin.state p)) as [file|] eqn:Hf;
      [|by rewrite Hidle].
    simpl. rewrite admin_commit_same by done.
    constructor; simpl; rewrite ?Hf; try done; some_cases.
  - (* UploadDone *)
    destruct (Admin.job p) as [[path seconds|path seconds]|] eqn:Hj;
      [|by rewrite Hidle..].
    assert (Hm : Admin.modal_rendered (Admin.state p) = true)
      by (apply Hjob; by eexists).
    destruct uerr as [message|]; simpl; rewrite admin_commit_same by done;
      constructor; simpl; try done; try (rewrite Hup); some_cases.
  - (* InsertDone *)
    destruct (Admin.job p) as [[path seconds|path seconds]|] eqn:Hj;
      [by rewrite Hidle| |by rewrite Hidle].
    assert (Hm : Admin.modal_rendered (Admin.state p) = true)
      by (apply Hjob; by eexists).
    destruct derr as [message|]; simpl.
    + rewrite admin_commit_same by done.
      constructor; simpl; try done; some_cases.
    + apply modal_rendered_true in Hm as [_ [u Hprev]].
      unfold Admin.commit. simpl. rewrite Hprev.
      rewrite bool_decide_eq_true_2 by done.
      constructor; simpl.
      * done.
      * rewrite Hcl, Hprev. simpl. rewrite Hurls, Hprev.
        apply set_eq. intros z. rewrite elem_of_difference. set_unfold. tauto.
      * done.
      * some_cases.
      * some_cases.
      * some_cases.
  - (* ListDone *)
    destruct (data r); [|by rewrite Hidle]. by apply Hkeep.
  - (* ToggleClick *)
    destruct (Admin.announcements (Admin.state p) !! row); [|by rewrite Hidle].
    by apply Hkeep.
  - (* ToggleDone *)
    destruct err; [by rewrite Hidle|]. by apply Hkeep.
  - (* DeleteClick *)
    destruct (Admin.announcements (Admin.state p) !! row); [|by rewrite Hidle].
    destruct confirmed; [|by rewrite Hidle]. by apply Hkeep.
  - (* DeleteDone *)
    destruct err; [by rewrite Hidle|]. by apply Hkeep.
  - (* ViewClick *)
    destruct (Admin.announcements (Admin.state p) !! row); [|by rewrite Hidle].
    by apply Hkeep.
  - (* ViewClose *)
    by apply Hkeep.
Qed.

Lemma admin_run_inv (evs : list Admin.Event) :
  AdminInv (Admin.run getPublicUrl evs Admin.mount).
Proof.
  induction evs as [|ev evs IH] using rev_ind; [apply admin_mount_inv|].
  unfold Admin.run. rewrite foldl_app. simpl. by apply admin_dispatch_inv.
Qed.

End admin.

(** X14. The preview never leaks an object URL: after every sequence of
    events the object URLs alive are the one of the current preview, or
    none when no file is selected, whatever the number of files selected
    and cancelled before; and unmounting the panel revokes the last
    one. *)
Theorem preview_urls_revoked (getPublicUrl : string → string)
    (evs : list Admin.Event) :
  let p := Admin.run getPublicUrl evs Admin.mount in
  Admin.objectURLs (Admin.env p) =
    match Admin.uploadPreviewUrl (Admin.state p) with
    | Some url => {[ url ]}
    | None => ∅
    end ∧
  (size (Admin.objectURLs (Admin.env p)) ≤ 1)%nat ∧
  Admin.objectURLs (Admin.unmount p) = ∅.
Proof.
  intros p. destruct (admin_run_inv getPublicUrl evs) as [Hcl Hurls _ _ _ _].
  fold p in Hcl, Hurls. split; [done|]. split.
  - rewrite Hurls. destruct (Admin.uploadPreviewUrl (Admin.state p)).
    + by rewrite size_singleton.
    + rewrite size_empty. lia.
  - unfold Admin.unmount. rewrite Hcl.
    destruct (Admin.uploadPreviewUrl (Admin.state p)) as [u|]; simpl;
      rewrite Hurls; [|done].
    apply set_eq. intros z. set_unfold. tauto.
Qed.

(** X15. One upload at a time: [uploading] is set exactly while a
    [confirmUpload] is waiting for the gateway, and then the modal is
    open, and selecting a file, Cancel and Confirm, all disabled, change
    nothing: no second upload can start and the file under upload cannot
    be replaced. *)
Theorem one_upload_at_a_time (getPublicUrl : string → string)
    (evs : list Admin.Event) :
  let p := Admin.run getPublicUrl evs Admin.mount in
  (Admin.uploading (Admin.state p) = true ↔ is_Some (Admin.job p)) ∧
  (Admin.uploading (Admin.state p) = true →
     Admin.modal_rendered (Admin.state p) = true ∧
     (∀ files, Admin.dispatch getPublicUrl (Admin.FileSelect files) p = p) ∧
     Admin.dispatch getPublicUrl Admin.CancelClick p = p ∧
     (∀ random, Admin.dispatch getPublicUrl (Admin.ConfirmClick random) p = p)).
Proof.
  intros p. destruct (admin_run_inv getPublicUrl evs) as [_ _ _ _ Hup Hjob].
  fold p in Hup, Hjob. split; [done|]. intros Hu.
  assert (Hidle : Admin.commit (Admin.env p) (Admin.job p) (Admin.state p) p = p).
  { rewrite admin_commit_same by done. by destruct p. }
  split; [by apply Hjob, Hup|].
  unfold Admin.dispatch. simpl. rewrite Hu, andb_false_r. done.
Qed.

Lemma one_upload_at_a_time_witness :
  let p := Admin.run (λ path, path)
             [Admin.FileSelect [{| Admin.name := "a.png"; Admin.type := "image/png" |}];
              Admin.ConfirmClick "0.5"] Admin.mount in
  Admin.dispatch (λ path, path) (Admin.ConfirmClick "0.7") p = p.
Proof.
  intros p.
  destruct (one_upload_at_a_time (λ path, path)
              [Admin.FileSelect [{| Admin.name := "a.png"; Admin.type := "image/png" |}];
               Admin.ConfirmClick "0.5"]) as [_ Hbusy].
  destruct (Hbusy eq_refl) as (_ & _ & _ & Hconfirm). apply Hconfirm.
Defined.

Lemma admin_state_eta (s : Admin.State) :
  Admin.uploading s = false →
  Admin.setUploading false (Admin.setUploading true s) = s.
Proof. intros Hu. unfold Admin.setUploading. simpl. rewrite <- Hu. by destruct s. Qed.

(** X16. How an upload ends.  From the open modal, Confirm sends the file
    under the path made of the random number and the extension of its
    name.  If the storage refuses it, the message is alerted, no row is
    written, and the panel is as before the click: the modal stays open
    with the same file.  Otherwise a row is written with the public URL
    of the path, [active], and the duration as it was at the click, even
    if the field was changed meanwhile.  If that fails the message is
    alerted and the modal stays open; if it succeeds, success is
    alerted, the list is fetched again, the modal is closed, its preview
    URL revoked, and [uploading] is off. *)
Theorem upload_outcomes (getPublicUrl : string → string)
    (evs : list Admin.Event) (file : Admin.File) (random : string) :
  let p := Admin.run getPublicUrl evs Admin.mount in
  let go := Admin.dispatch getPublicUrl in
  Admin.selectedFile (Admin.state p) = Some file →
  Admin.uploading (Admin.state p) = false →
  let path := filePath random (Admin.name file) in
  let p1 := go (Admin.ConfirmClick random) p in
  Admin.requests (Admin.env p1) =
    Admin.requests (Admin.env p) ++ [Admin.StorageUpload path file] ∧
  Admin.uploading (Admin.state p1) = true ∧
  (∀ message,
     let p2 := go (Admin.UploadDone (Some message)) p1 in
     Admin.alerts (Admin.env p2) =
       Admin.alerts (Admin.env p) ++ ["Error uploading document: " +:+ message] ∧
     Admin.requests (Admin.env p2) = Admin.requests (Admin.env p1) ∧
     Admin.state p2 = Admin.state p ∧ Admin.job p2 = None) ∧
  (∀ v,
     let p2 := go (Admin.UploadDone None) (go (Admin.DurationInput v) p1) in
     Admin.requests (Admin.env p2) =
       Admin.requests (Admin.env p1) ++
       [Admin.InsertRow (getPublicUrl path) (Admin.duration (Admin.state p)) true] ∧
     (∀ message,
        let p3 := go (Admin.InsertDone (Some message)) p2 in
        Admin.alerts (Admin.env p3) =
          Admin.alerts (Admin.env p) ++ ["Error uploading document: " +:+ message] ∧
        Admin.selectedFile (Admin.state p3) = Some file ∧
        Admin.uploadPreviewUrl (Admin.state p3) =
          Admin.uploadPreviewUrl (Admin.state p) ∧
        Admin.uploading (Admin.state p3) = false ∧ Admin.job p3 = None) ∧
     let p3 := go (Admin.InsertDone None) p2 in
     Admin.alerts (Admin.env p3) =
       Admin.alerts (Admin.env p) ++ ["Upload successful!"] ∧
     Admin.requests (Admin.env p3) =
       Admin.requests (Admin.env p2) ++ [Admin.SelectAll] ∧
     Admin.selectedFile (Admin.state p3) = None ∧
     Admin.uploadPreviewUrl (Admin.state p3) = None ∧
     Admin.objectURLs (Admin.env p3) = ∅ ∧
     Admin.uploading (Admin.state p3) = false ∧ Admin.job p3 = None).
Proof.
  intros p go Hf Hu path p1.
  destruct (admin_run_inv getPublicUrl evs) as [Hcl Hurls _ Hsel Hup _].
  fold p in Hcl, Hurls, Hsel, Hup.
  destruct (proj1 Hsel ltac:(by eexists)) as [u Hprev].
  assert (Hm : Admin.modal_rendered (Admin.state p) = true).
  { apply modal_rendered_true. split; by eexists. }
  assert (Hp1 : p1 =
    {| Admin.env := Admin.send (Admin.StorageUpload path file) (Admin.env p);
       Admin.state := Admin.setUploading true (Admin.state p);
       Admin.previewCleanup := Admin.previewCleanup p;
       Admin.job := Some (Admin.AwaitUpload path (Admin.duration (Admin.state p))) |}).
  { unfold p1, go, Admin.dispatch. simpl. rewrite Hm, Hu, Hf. simpl.
    by rewrite admin_commit_same. }
  split; [by rewrite Hp1|]. split; [by rewrite Hp1|]. split.
  - intros message p2.
    assert (Hp2 : p2 =
      {| Admin.env := Admin.alert ("Error uploading document: " +:+ message)
                        (Admin.env p1);
         Admin.state := Admin.setUploading false (Admin.state p1);
         Admin.previewCleanup := Admin.previewCleanup p1;
         Admin.job := None |}).
    { unfold p2, go, Admin.dispatch. rewrite Hp1. simpl.
      by rewrite admin_commit_same. }
    rewrite Hp2, Hp1. simpl. by rewrite admin_state_eta.
  - intros v p2.
    assert (Hp2 : p2 =
      {| Admin.env := Admin.send
                        (Admin.InsertRow (getPublicUrl path)
                           (Admin.duration (Admin.state p)) true)
                        (Admin.env p1);
         Admin.state := Admin.setDuration v (Admin.state p1);
         Admin.previewCleanup := Admin.previewCleanup p1;
         Admin.job := Some (Admin.AwaitInsert path (Admin.duration (Admin.state p))) |}).
    { unfold p2, go, Admin.dispatch. rewrite Hp1. simpl.
      rewrite admin_commit_same by done. simpl. by rewrite admin_commit_same. }
    split; [by rewrite Hp2|]. split.
    + intros message p3.
      assert (Hp3 : p3 =
        {| Admin.env := Admin.alert ("Error uploading document: " +:+ message)
                          (Admin.env p2);
           Admin.state := Admin.setUploading false (Admin.state p2);
           Admin.previewCleanup := Admin.previewCleanup p2;
           Admin.job := None |}).
      { unfold p3, go, Admin.dispatch. rewrite Hp2. simpl.
        by rewrite admin_commit_same. }
      rewrite Hp3, Hp2, Hp1. simpl. by rewrite Hf.
    + intros p3.
      assert (Hp3 : p3 =
        {| Admin.env := Admin.preview_cleanup (Admin.previewCleanup p2)
                          (Admin.fetchAnnouncements
                             (Admin.alert "Upload successful!" (Admin.env p2)));
           Admin.state := Admin.setUploading false
                            (Admin.cancelUpload (Admin.state p2));
           Admin.previewCleanup := None;
           Admin.job := None |}).
      { unfold p3, go, Admin.dispatch. rewrite Hp2. simpl.
        unfold Admin.commit. simpl. rewrite Hp1. simpl. rewrite Hprev.
        by rewrite bool_decide_eq_true_2. }
      rewrite Hp3, Hp2, Hp1. simpl. rewrite Hcl, Hprev. simpl.
      rewrite Hurls, Hprev.
      repeat split; try done.
      apply set_eq. intros z. set_unfold. tauto.
Qed.

Lemma upload_outcomes_witness :
  let file := {| Admin.name := "holiday.MP4"; Admin.type := "video/mp4" |} in
  let p1 := Admin.run (λ path, "https://cdn.example/media/" +:+ path)
              [Admin.FileSelect [file]; Admin.DurationInput 20;
               Admin.ConfirmClick "0.4211"] Admin.mount in
  Admin.requests (Admin.env p1) =
    [Admin.SelectAll; Admin.StorageUpload "0.4211.MP4" file] ∧
  Admin.uploading (Admin.state p1) = true.
Proof.
  intros file p1.
  destruct (upload_outcomes (λ path, "https://cdn.example/media/" +:+ path)
              [Admin.FileSelect [file]; Admin.DurationInput 20] file "0.4211"
              eq_refl eq_refl) as (Hreq & Hup & _).
  split; [exact Hreq|exact Hup].
Defined.

(** The list a [ListDone] brings, if it brings one. *)
Lemma admin_dispatch_list (getPublicUrl : string → string)
    (ev : Admin.Event) (p : Admin.Panel) :
  Admin.announcements (Admin.state (Admin.dispatch getPublicUrl ev p)) =
    default (Admin.announcements (Admin.state p)) (Admin.fetched ev).
Proof.
  assert (Hst : ∀ e j new,
    Admin.state (Admin.commit e j new p) = new).
  { intros e j new. unfold Admin.commit. by case_bool_decide. }
  unfold Admin.dispatch.
  destruct (Admin.handler getPublicUrl ev p) as [[e j] new] eqn:Hh.
  rewrite Hst. revert Hh.
  destruct ev as [files|v| |random|uerr|derr|r|row|err|row confirmed|err|row|];
    simpl;
    repeat match goal with
           | |- context [match ?x with _ => _ end] => destruct x
           end; simpl; intros; by simplify_eq.
Qed.

(** X17. The table shows what the gateway returned last: after every
    sequence of events the list of the panel is the data of the last
    [select] that came back with data, and the empty list if none did.
    No click changes it (there is no optimistic update on toggle or
    delete), and a [select] that comes back without data (a failed one)
    leaves the list of the one before. *)
Theorem table_is_last_fetched (getPublicUrl : string → string)
    (evs : list Admin.Event) :
  Admin.announcements (Admin.state (Admin.run getPublicUrl evs Admin.mount)) =
    default [] (last (omap Admin.fetched evs)).
Proof.
  induction evs as [|ev evs IH] using rev_ind; [done|].
  unfold Admin.run in *. rewrite foldl_app. simpl.
  rewrite admin_dispatch_list, IH, omap_app. simpl.
  destruct (Admin.fetched ev) as [l|]; simpl.
  - by rewrite last_snoc.
  - by rewrite app_nil_r.
Qed.
